(** * sync.Mutex (src/sync/mutex.go): Lock / Unlock as a transition system

    The mutex is one shared [int32] word, read and written by atomic
    operations, plus a semaphore counter handed to the runtime.  Each
    goroutine is a control point inside [Lock] or [Unlock] together with the
    locals live at that point; one transition performs at most one access to
    the shared word.  Goroutines are interleaved by an arbitrary schedule,
    which also carries the answer of [runtime_canSpin]. *)

From Stdlib Require Import ZArith Bool Lia String.
From stdpp Require Import base list.

Open Scope Z_scope.

(** ** Machine integers *)

Module Int32.

Definition modulus : Z := 2 ^ 32.
Definition half_modulus : Z := 2 ^ 31.

(** Two's complement reduction of an integer to the [int32] range. *)
Definition wrap (z : Z) : Z := (z + half_modulus) mod modulus - half_modulus.

Definition add (a b : Z) : Z := wrap (a + b).
Definition sub (a b : Z) : Z := wrap (a - b).

End Int32.

Module GoInt.

(** [iter] is a Go [int]; 64 bits with the gc toolchain on amd64. *)
Definition wrap (z : Z) : Z := (z + 2 ^ 63) mod 2 ^ 64 - 2 ^ 63.
Definition incr (i : Z) : Z := wrap (i + 1).

End GoInt.

Module Uint32.

Definition wrap (z : Z) : Z := z mod 2 ^ 32.

End Uint32.

(** ** The state word *)

(** [const ( mutexLocked = 1 << iota; mutexWoken; mutexWaiterShift = iota )] *)
Definition mutexLocked : Z := Z.shiftl 1 0.
Definition mutexWoken : Z := Z.shiftl 1 1.
Definition mutexWaiterShift : Z := 2.

Record Mutex : Type := mkMutex {
  state : Z;   (* int32 *)
  sema : Z     (* uint32 *)
}.

(** The zero value of the struct. *)
Definition zeroMutex : Mutex := mkMutex 0 0.

Definition set_state (m : Mutex) (v : Z) : Mutex := mkMutex v (sema m).

(** The three fields packed in a state word. *)
Definition locked (s : Z) : bool := negb (Z.land s mutexLocked =? 0).
Definition woken (s : Z) : bool := negb (Z.land s mutexWoken =? 0).
Definition waiters (s : Z) : Z := Z.shiftr s mutexWaiterShift.

(** ** Atomic operations of sync/atomic, sequentially consistent *)

(** [atomic.CompareAndSwapInt32(&m.state, old, new)] *)
Definition CompareAndSwapInt32 (m : Mutex) (old new : Z) : bool * Mutex :=
  if state m =? old then (true, set_state m new) else (false, m).

(** [atomic.AddInt32(&m.state, delta)]: returns the new value. *)
Definition AddInt32 (m : Mutex) (delta : Z) : Z * Mutex :=
  let v := Int32.add (state m) delta in (v, set_state m v).

(** ** The semaphore of the runtime *)

(** Modelled from the spec: [runtime_Semacquire] and [runtime_Semrelease]
    belong to the runtime package.  Acquire blocks until a matching release;
    release wakes one blocked acquire or leaves a credit.  [None] stands for
    a goroutine that stays parked. *)
Definition runtime_Semacquire (m : Mutex) : option Mutex :=
  if 0 <? sema m then Some (mkMutex (state m) (sema m - 1)) else None.

Definition runtime_Semrelease (m : Mutex) : Mutex :=
  mkMutex (state m) (Uint32.wrap (sema m + 1)).

(** ** Control points *)

(** What a transition shows to an observer. *)
Inductive event : Type :=
  | EvCAS (old new : Z) (ok : bool)
  | EvAdd (delta result : Z)
  | EvLoad (v : Z)
  | EvCanSpin (iter : Z) (answer : bool)
  | EvDoSpin
  | EvSemacquire
  | EvSemrelease
  | EvAcquired          (* Lock returns: the caller holds the mutex *)
  | EvReleased          (* Unlock dropped the lock bit *)
  | EvUnlockReturn
  | EvPanic (msg : string).

(** Control points of [Lock] (L...) and [Unlock] (U...), named after the
    source line they stand at, with the locals that are live there. *)
Inductive frame : Type :=
  | LFast                                         (* line 47 *)
  | LLoad (awoke : bool) (iter : Z)               (* line 59 *)
  | LCanSpin (awoke : bool) (iter old : Z)        (* line 62 *)
  | LSpinCAS (awoke : bool) (iter old : Z)        (* line 67 *)
  | LDoSpin (awoke : bool) (iter : Z)             (* line 70 *)
  | LCheck (awoke : bool) (iter old new : Z)      (* line 76 *)
  | LCAS (awoke : bool) (iter old new : Z)        (* line 85 *)
  | LSema                                         (* line 91 *)
  | UAdd                                          (* line 115 *)
  | UCheck (old : Z)                              (* line 124 *)
  | UCAS (old new : Z)                            (* line 129 *)
  | USema                                         (* line 131 *)
  | ULoad.                                        (* line 134 *)

Inductive outcome : Type :=
  | Goto (f : frame)
  | Return
  | Panic (msg : string)
  | Block.

Definition inconsistent_msg : string := "sync: inconsistent mutex state".
Definition unlocked_msg : string := "sync: unlock of unlocked mutex".

(** One transition of a goroutine standing at [f].  [canSpin] is what
    [runtime_canSpin(iter)] answers should the transition ask; the race
    detector hooks are compiled out ([raceenabled] is false). *)
Definition step (canSpin : bool) (f : frame) (m : Mutex)
  : outcome * Mutex * list event :=
  match f with
  | LFast =>
      let '(ok, m') := CompareAndSwapInt32 m 0 mutexLocked in
      if ok then (Return, m', [EvCAS 0 mutexLocked true; EvAcquired])
      else (Goto (LLoad false 0), m', [EvCAS 0 mutexLocked false])
  | LLoad awoke iter =>
      let old := state m in
      let new := Z.lor old mutexLocked in
      if negb (Z.land old mutexLocked =? 0)
      then (Goto (LCanSpin awoke iter old), m, [EvLoad old])
      else (Goto (LCheck awoke iter old new), m, [EvLoad old])
  | LCanSpin awoke iter old =>
      if canSpin then
        if negb awoke && (Z.land old mutexWoken =? 0)
           && negb (Z.shiftr old mutexWaiterShift =? 0)
        then (Goto (LSpinCAS awoke iter old), m, [EvCanSpin iter true])
        else (Goto (LDoSpin awoke iter), m, [EvCanSpin iter true])
      else
        let new := Int32.add old (Z.shiftl 1 mutexWaiterShift) in
        (Goto (LCheck awoke iter old new), m, [EvCanSpin iter false])
  | LSpinCAS awoke iter old =>
      let new := Z.lor old mutexWoken in
      let '(ok, m') := CompareAndSwapInt32 m old new in
      if ok then (Goto (LDoSpin true iter), m', [EvCAS old new true])
      else (Goto (LDoSpin awoke iter), m', [EvCAS old new false])
  | LDoSpin awoke iter =>
      (Goto (LLoad awoke (GoInt.incr iter)), m, [EvDoSpin])
  | LCheck awoke iter old new =>
      if awoke then
        if Z.land new mutexWoken =? 0
        then (Panic inconsistent_msg, m, [EvPanic inconsistent_msg])
        else (Goto (LCAS awoke iter old (Z.ldiff new mutexWoken)), m, [])
      else (Goto (LCAS awoke iter old new), m, [])
  | LCAS awoke iter old new =>
      let '(ok, m') := CompareAndSwapInt32 m old new in
      if ok then
        if Z.land old mutexLocked =? 0
        then (Return, m', [EvCAS old new true; EvAcquired])
        else (Goto LSema, m', [EvCAS old new true])
      else (Goto (LLoad awoke iter), m', [EvCAS old new false])
  | LSema =>
      match runtime_Semacquire m with
      | Some m' => (Goto (LLoad true 0), m', [EvSemacquire])
      | None => (Block, m, [])
      end
  | UAdd =>
      let '(new, m') := AddInt32 m (- mutexLocked) in
      if Z.land (Int32.add new mutexLocked) mutexLocked =? 0
      then (Panic unlocked_msg, m', [EvAdd (- mutexLocked) new; EvPanic unlocked_msg])
      else (Goto (UCheck new), m', [EvAdd (- mutexLocked) new; EvReleased])
  | UCheck old =>
      if (Z.shiftr old mutexWaiterShift =? 0)
         || negb (Z.land old (Z.lor mutexLocked mutexWoken) =? 0)
      then (Return, m, [EvUnlockReturn])
      else
        let new := Z.lor (Int32.sub old (Z.shiftl 1 mutexWaiterShift)) mutexWoken in
        (Goto (UCAS old new), m, [])
  | UCAS old new =>
      let '(ok, m') := CompareAndSwapInt32 m old new in
      if ok then (Goto USema, m', [EvCAS old new true])
      else (Goto ULoad, m', [EvCAS old new false])
  | USema =>
      (Return, runtime_Semrelease m, [EvSemrelease; EvUnlockReturn])
  | ULoad =>
      (Goto (UCheck (state m)), m, [EvLoad (state m)])
  end.

(** ** Goroutines and their interleaving *)

(** A caller's program: the calls it still has to make on the one mutex. *)
Inductive call : Type := Lock | Unlock.

Definition entry (c : call) : frame :=
  match c with Lock => LFast | Unlock => UAdd end.

Record goroutine : Type := mkG {
  pending : list call;      (* calls not yet started *)
  pc : option frame         (* [None]: between two calls *)
}.

Record system : Type := mkSys {
  mu : Mutex;
  gs : list goroutine;
  fatal : option string     (* an unrecovered panic ends the process *)
}.

Definition boot (progs : list (list call)) : system :=
  mkSys zeroMutex (map (fun p => mkG p None) progs) None.

(** Goroutine [i] takes one transition; a parked, finished or unknown
    goroutine, or a dead process, leaves the system as it is. *)
Definition sys_step (i : nat) (canSpin : bool) (s : system)
  : system * list event :=
  match fatal s with
  | Some _ => (s, [])
  | None =>
      match gs s !! i with
      | None => (s, [])
      | Some g =>
          match pc g with
          | None =>
              match pending g with
              | [] => (s, [])
              | c :: rest =>
                  (mkSys (mu s) (<[i := mkG rest (Some (entry c))]> (gs s)) None, [])
              end
          | Some f =>
              let '(o, m', evs) := step canSpin f (mu s) in
              match o with
              | Goto f' =>
                  (mkSys m' (<[i := mkG (pending g) (Some f')]> (gs s)) None, evs)
              | Return =>
                  (mkSys m' (<[i := mkG (pending g) None]> (gs s)) None, evs)
              | Panic msg => (mkSys m' (gs s) (Some msg), evs)
              | Block => (s, [])
              end
          end
      end
  end.

(** A schedule names, for each instant, the goroutine that moves and the
    spin advisor's answer. *)
Fixpoint exec (sched : list (nat * bool)) (s : system) : system * list event :=
  match sched with
  | [] => (s, [])
  | (i, b) :: rest =>
      let '(s1, e1) := sys_step i b s in
      let '(s2, e2) := exec rest s1 in
      (s2, e1 ++ e2)
  end.

(** One goroutine running alone. *)
Definition alone (answers : list bool) : list (nat * bool) :=
  map (fun b => (0%nat, b)) answers.

(** ** One call under arbitrary interference *)

(** The environment rewrites the mutex before each transition of the call;
    the result lists the control points passed and the events shown. *)
Fixpoint call_run (env : list (bool * Mutex)) (f : frame)
  : list frame * list event :=
  match env with
  | [] => ([f], [])
  | (b, m) :: rest =>
      let '(o, _, evs) := step b f m in
      match o with
      | Goto f' => let '(fs, tr) := call_run rest f' in (f :: fs, evs ++ tr)
      | Block => let '(fs, tr) := call_run rest f in (fs, tr)
      | Return | Panic _ => ([f], evs)
      end
  end.

(** ** Observations on traces and systems *)

Definition is_acquired (e : event) : bool :=
  match e with EvAcquired => true | _ => false end.
Definition is_released (e : event) : bool :=
  match e with EvReleased => true | _ => false end.
Definition is_semrelease (e : event) : bool :=
  match e with EvSemrelease => true | _ => false end.
Definition is_slow (e : event) : bool :=
  match e with
  | EvSemacquire | EvSemrelease | EvDoSpin | EvCanSpin _ _ => true
  | _ => false
  end.

Fixpoint count (p : event -> bool) (tr : list event) : nat :=
  match tr with
  | [] => 0
  | e :: rest => (if p e then 1 else 0) + count p rest
  end.

(** Locks acquired and not yet released, over a whole trace. *)
Definition outstanding (tr : list event) : Z :=
  Z.of_nat (count is_acquired tr) - Z.of_nat (count is_released tr).

(** Callers that pair every [Lock] with a following [Unlock]. *)
Fixpoint paired (p : list call) : bool :=
  match p with
  | [] => true
  | Lock :: Unlock :: rest => paired rest
  | _ => false
  end.

(** For such a caller: it has returned from [Lock] and its [Unlock] has not
    yet dropped the lock bit. *)
Definition holding (g : goroutine) : bool :=
  match pc g, pending g with
  | Some UAdd, _ => true
  | None, Unlock :: _ => true
  | _, _ => false
  end.

Fixpoint holders (l : list goroutine) : nat :=
  match l with
  | [] => 0
  | g :: rest => (if holding g then 1 else 0) + holders rest
  end.

(** The invariant in the words of the specification's data model: woken
    is never set unless at least one waiter exists. *)
Definition woken_needs_waiter (s : Z) : Prop :=
  woken s = true -> 1 <= waiters s.

(** [n] rounds of Lock immediately followed by Unlock. *)
Fixpoint rounds (n : nat) : list call :=
  match n with
  | O => []
  | S k => Lock :: Unlock :: rounds k
  end.

(** The scenario of the specification: A locks and unlocks while B locks. *)
Definition two_units : system := boot [[Lock; Unlock]; [Lock]].

Definition wake_schedule : list (nat * bool) :=
  [(0, false); (0, false);                      (* A: Lock, fast path *)
   (1, false); (1, false); (1, false); (1, false); (1, false); (1, false);
                                                (* B: registers as waiter *)
   (0, false); (0, false); (0, false); (0, false)]%nat.
                                                (* A: Unlock wins its CAS *)

(** ** Control points a call can reach *)

(** The candidate [new] that [Lock] computes from [old] (lines 60 and 74). *)
Definition candidate (old : Z) : Z :=
  if locked old then Int32.add old (Z.shiftl 1 mutexWaiterShift)
  else Z.lor old mutexLocked.

(** What the locals of a control point owe to the tests passed on the way. *)
Definition frame_ok (f : frame) : Prop :=
  match f with
  | LCanSpin _ _ old => locked old = true
  | LSpinCAS awoke _ old =>
      awoke = false /\ locked old = true /\ woken old = false /\ waiters old <> 0
  | LCheck _ _ old new => new = candidate old
  | LCAS awoke _ old new =>
      new = (if awoke then Z.ldiff (candidate old) mutexWoken else candidate old)
      /\ (awoke = true -> woken (candidate old) = true)
  | UCAS old new =>
      new = Z.lor (Int32.sub old (Z.shiftl 1 mutexWaiterShift)) mutexWoken
      /\ locked old = false /\ woken old = false /\ waiters old <> 0
  | _ => True
  end.

Definition in_unlock (f : frame) : bool :=
  match f with
  | UAdd | UCheck _ | UCAS _ _ | USema | ULoad => true
  | _ => false
  end.

(** ** Invariants of the interleaving *)

Definition b2n (b : bool) : nat := if b then 1 else 0.

(** Every goroutine inside a call stands at a control point whose locals
    are consistent. *)
Definition goroutine_ok (g : goroutine) : Prop :=
  match pc g with Some f => frame_ok f | None => True end.

Definition sys_ok (s : system) : Prop := Forall goroutine_ok (gs s).

(** A caller of paired programs: inside Lock the matching Unlock is still
    pending, inside Unlock the rest is paired. *)
Definition goroutine_paired (g : goroutine) : bool :=
  match pc g with
  | None => paired (pending g) || paired (Lock :: pending g)
  | Some f => if in_unlock f then paired (pending g) else paired (Lock :: pending g)
  end.

(** The goroutine after a transition with outcome [o]. *)
Definition resume (g : goroutine) (o : outcome) : goroutine :=
  match o with
  | Goto f' => mkG (pending g) (Some f')
  | Return => mkG (pending g) None
  | Panic _ | Block => g
  end.

(** Acquisitions [a] and releases [r] agree with the lock bit. *)
Definition balanced (s : system) (a r : nat) : Prop :=
  match fatal s with
  | None => a = (r + b2n (locked (state (mu s))))%nat
  | Some _ => (r <= a <= r + 1)%nat
  end.

(** With paired callers the holders are counted by the lock bit. *)
Definition paired_inv (s : system) : Prop :=
  Forall (fun g => goroutine_paired g = true) (gs s) /\
  holders (gs s) = b2n (locked (state (mu s))).

(** ** One goroutine, no contention *)

(** The five shapes a lone caller of [rounds] passes through, indexed by
    the transitions left before it has finished. *)
Inductive solo : nat -> system -> Prop :=
  | solo_idle k :
      solo (5 * k) (mkSys zeroMutex [mkG (rounds k) None] None)
  | solo_fast k :
      solo (5 * k + 4) (mkSys zeroMutex [mkG (Unlock :: rounds k) (Some LFast)] None)
  | solo_held k :
      solo (5 * k + 3) (mkSys (mkMutex mutexLocked 0) [mkG (Unlock :: rounds k) None] None)
  | solo_add k :
      solo (5 * k + 2) (mkSys (mkMutex mutexLocked 0) [mkG (rounds k) (Some UAdd)] None)
  | solo_check k :
      solo (5 * k + 1) (mkSys zeroMutex [mkG (rounds k) (Some (UCheck 0))] None).

(** ** Schedules used as concrete inputs *)

(** A holds the lock and B is parked. *)
Definition hold_schedule : list (nat * bool) :=
  [(0, false); (0, false);
   (1, false); (1, false); (1, false); (1, false); (1, false); (1, false)]%nat.

(** A's Unlock stands at its compare-and-swap. *)
Definition before_wake : list (nat * bool) :=
  [(0, false); (0, false);
   (1, false); (1, false); (1, false); (1, false); (1, false); (1, false);
   (0, false); (0, false); (0, false)]%nat.

(** ** One call running alone *)

(** The transitions of one call with nobody else touching the mutex, one
    answer of the spin advisor per transition.  The outcome is [Goto f]
    when the answers run out at [f], [Block] when the call parks. *)
Fixpoint call_alone (answers : list bool) (f : frame) (m : Mutex)
  : outcome * Mutex * list event :=
  match answers with
  | [] => (Goto f, m, [])
  | b :: rest =>
      let '(o, m', evs) := step b f m in
      match o with
      | Goto f' =>
          let '(o2, m2, e2) := call_alone rest f' m' in (o2, m2, evs ++ e2)
      | _ => (o, m', evs)
      end
  end.

(** ** Wake-ups, waiters and runnable goroutines *)

Definition b2z (b : bool) : Z := if b then 1 else 0.

(** The local [awoke] of a control point of Lock's loop. *)
Definition awoke_of (f : frame) : bool :=
  match f with
  | LLoad a _ | LCanSpin a _ _ | LSpinCAS a _ _ | LDoSpin a _
  | LCheck a _ _ _ | LCAS a _ _ _ => a
  | _ => false
  end.

Definition at_lsema (f : frame) : bool :=
  match f with LSema => true | _ => false end.

Definition at_usema (f : frame) : bool :=
  match f with USema => true | _ => false end.

(** Unlock between its subtraction and its compare-and-swap, with the
    state word [s] in [old]. *)
Definition waking (s : Z) (f : frame) : bool :=
  match f with
  | UCheck old => old =? s
  | UCAS old _ => old =? s
  | _ => false
  end.

Definition standing (p : frame -> bool) (g : goroutine) : bool :=
  match pc g with Some f => p f | None => false end.

Fixpoint tally (p : goroutine -> bool) (l : list goroutine) : Z :=
  match l with
  | [] => 0
  | g :: rest => b2z (p g) + tally p rest
  end.

(** Wake-ups in flight: goroutines that are awoke, releases about to be
    made, and credits left in the semaphore. *)
Definition wakeups (s : system) : Z :=
  tally (standing awoke_of) (gs s) + tally (standing at_usema) (gs s)
  + sema (mu s).

(** An awoke caller has read [old] with the woken bit. *)
Definition frame_fresh (f : frame) : Prop :=
  match f with
  | LCanSpin true _ old => woken old = true
  | LCheck true _ _ new => woken new = true
  | _ => True
  end.

Definition goroutine_fresh (g : goroutine) : Prop :=
  match pc g with Some f => frame_fresh f | None => True end.

(** The goroutine has a transition to take. *)
Definition runnable (m : Mutex) (g : goroutine) : bool :=
  match pc g with
  | None => match pending g with [] => false | _ :: _ => true end
  | Some LSema => 0 <? sema m
  | Some _ => true
  end.

(** The goroutine has made all its calls. *)
Definition finished (g : goroutine) : bool :=
  match pc g, pending g with
  | None, [] => true
  | _, _ => false
  end.

Definition only_lock (p : list call) : bool :=
  forallb (fun c => match c with Lock => true | Unlock => false end) p.

(** Wake-ups in flight are counted by the woken bit. *)
Definition token_inv (s : system) : Prop :=
  Forall goroutine_fresh (gs s) /\
  0 <= sema (mu s) /\
  wakeups s = b2z (woken (state (mu s))).

(** Parked callers are counted by the waiter field, the semaphore and the
    releases about to be made. *)
Definition waiter_inv (s : system) : Prop :=
  0 <= state (mu s) /\ 0 <= sema (mu s) /\
  waiters (state (mu s)) + sema (mu s) + tally (standing at_usema) (gs s)
  = tally (standing at_lsema) (gs s).

(** ** Invariants and observations beyond single transitions *)

Definition tok (f : frame) : Z := b2z (awoke_of f) + b2z (at_usema f).

(** Either nothing has panicked and the wake-ups are counted, or the
    process died of an Unlock of an unlocked mutex. *)
Definition tokens_ok (s : system) : Prop :=
  (fatal s = None /\ token_inv s) \/ fatal s = Some unlocked_msg.

Definition needs_wake (s : Z) : bool :=
  negb (locked s) && negb (woken s) && negb (waiters s =? 0).

Definition waker_inv (s : system) : Prop :=
  needs_wake (state (mu s)) = true ->
  0 < tally (standing (waking (state (mu s)))) (gs s).

Definition after (o : outcome) (p : frame -> bool) : bool :=
  match o with Goto f' => p f' | _ => false end.

Definition lock_only (s : system) : Prop :=
  Forall (fun g => only_lock (pending g) = true /\ standing in_unlock g = false)
         (gs s).

(** The calls of Lock a goroutine has not returned from. *)
Fixpoint lock_calls (p : list call) : nat :=
  match p with
  | [] => 0
  | Lock :: rest => S (lock_calls rest)
  | Unlock :: rest => lock_calls rest
  end.

Definition locks_open (g : goroutine) : nat :=
  lock_calls (pending g)
  + match pc g with
    | Some f => if in_unlock f then 0 else 1
    | None => 0
    end.

Fixpoint locks_left (l : list goroutine) : nat :=
  match l with
  | [] => 0
  | g :: rest => locks_open g + locks_left rest
  end.

(** A control point of Lock, alone with a locked mutex and an empty
    semaphore. *)
Definition alone_locked (f : frame) (m : Mutex) : Prop :=
  in_unlock f = false /\ frame_ok f /\ frame_fresh f /\
  locked (state m) = true /\ sema m = 0 /\
  (awoke_of f = true -> woken (state m) = true).

(** The mutex as a lone Lock has it, from the word [s] it found: [s]
    itself, or [s] with the woken bit once the caller has set it and is
    awoke, or [s] plus one waiter once the caller has registered. *)
Definition spun_word (s : Z) (a : bool) (m : Mutex) : Prop :=
  if a then state m = Z.lor s mutexWoken /\ woken s = false else state m = s.

Definition spun (s : Z) (f : frame) (m : Mutex) : Prop :=
  sema m = 0 /\ locked s = true /\
  match f with
  | LFast => state m = s
  | LLoad a _ | LDoSpin a _ => spun_word s a m
  | LCanSpin a _ old => old = state m /\ spun_word s a m
  | LSpinCAS a _ old =>
      old = state m /\ spun_word s a m /\ a = false /\ woken old = false
  | LCheck a _ old new =>
      old = state m /\ spun_word s a m /\
      new = Int32.add old (Z.shiftl 1 mutexWaiterShift)
  | LCAS a _ old new =>
      old = state m /\ spun_word s a m /\
      new = (if a
             then Z.ldiff (Int32.add old (Z.shiftl 1 mutexWaiterShift)) mutexWoken
             else Int32.add old (Z.shiftl 1 mutexWaiterShift))
  | LSema => state m = Int32.add s (Z.shiftl 1 mutexWaiterShift)
  | _ => False
  end.

Definition is_wait (e : event) : bool :=
  match e with
  | EvSemacquire | EvDoSpin | EvCanSpin _ _ => true
  | _ => false
  end.

(** A locks, B parks, A unlocks and wakes B, B locks and unlocks. *)
Definition handover_schedule : list (nat * bool) :=
  wake_schedule
  ++ [(0, true); (1, true); (1, true); (1, true); (1, true);
      (1, true); (1, true); (1, true); (1, true)]%nat.

(** The advisor grants one spin, then refuses. *)
Definition spin_then_park : list bool :=
  [true; true; true; true; true; true; false; true; true; true].

(** * Proofs *)

(** ** The fields of the state word, arithmetically *)

Module Bits.

Lemma land_sub (a c : Z) : Z.ldiff a c = a - Z.land a c.
Proof.
  symmetry. rewrite Z.sub_nocarry_ldiff.
  - apply Z.bits_inj'; intros n _.
    rewrite !Z.ldiff_spec, Z.land_spec.
    destruct (Z.testbit a n), (Z.testbit c n); reflexivity.
  - apply Z.bits_inj'; intros n _.
    rewrite Z.ldiff_spec, Z.land_spec, Z.bits_0.
    destruct (Z.testbit a n), (Z.testbit c n); reflexivity.
Qed.

Lemma lor_add (a c : Z) : Z.lor a c = a - Z.land a c + c.
Proof.
  rewrite <- land_sub, Z.add_nocarry_lxor.
  - apply Z.bits_inj'; intros n _.
    rewrite Z.lxor_spec, Z.ldiff_spec, Z.lor_spec.
    destruct (Z.testbit a n), (Z.testbit c n); reflexivity.
  - apply Z.bits_inj'; intros n _.
    rewrite Z.land_spec, Z.ldiff_spec, Z.bits_0.
    destruct (Z.testbit a n), (Z.testbit c n); reflexivity.
Qed.

Lemma land_1 (a : Z) : Z.land a 1 = a mod 2.
Proof. exact (Z.land_ones a 1 ltac:(lia)). Qed.

Lemma land_3 (a : Z) : Z.land a 3 = a mod 4.
Proof. exact (Z.land_ones a 2 ltac:(lia)). Qed.

Lemma land_2 (a : Z) : Z.land a 2 = a mod 4 - a mod 2.
Proof.
  rewrite <- land_3, <- land_1.
  assert (H1 : Z.land (Z.land a 3) 1 = Z.land a 1).
  { rewrite <- Z.land_assoc. reflexivity. }
  assert (H2 : Z.ldiff (Z.land a 3) 1 = Z.land a 2).
  { rewrite Z.ldiff_land, <- Z.land_assoc. reflexivity. }
  rewrite <- H2, land_sub, H1. reflexivity.
Qed.

Lemma shiftr_2 (a : Z) : Z.shiftr a 2 = a / 4.
Proof. exact (Z.shiftr_div_pow2 a 2 ltac:(lia)). Qed.

Lemma wrap_div (z : Z) :
  Int32.wrap z = z - 4294967296 * ((z + 2147483648) / 4294967296).
Proof.
  unfold Int32.wrap, Int32.modulus, Int32.half_modulus.
  change (2 ^ 32) with 4294967296. change (2 ^ 31) with 2147483648.
  pose proof (Z.div_mod (z + 2147483648) 4294967296 ltac:(lia)). lia.
Qed.

End Bits.

(** Rewrites every field test and bit operation of the model into
    division and remainder by constants, which [lia] decides. *)
Ltac arith :=
  unfold locked, woken, waiters, Int32.add, Int32.sub in *;
  change mutexLocked with 1 in *; change mutexWoken with 2 in *;
  change mutexWaiterShift with 2 in *;
  change (Z.shiftl 1 2) with 4 in *; change (Z.lor 1 2) with 3 in *;
  rewrite ?Bits.land_sub, ?Bits.lor_add, ?Bits.shiftr_2 in *;
  rewrite ?Bits.land_1, ?Bits.land_2, ?Bits.land_3, ?Bits.wrap_div in *;
  rewrite ?negb_true_iff, ?negb_false_iff, ?Z.eqb_eq, ?Z.eqb_neq in *.

Ltac arith_lia := arith; try (Z.div_mod_to_equations; lia).

(** Cases on every test of a transition. *)
Ltac branches :=
  repeat match goal with
  | |- context [if ?c then _ else _] => destruct c eqn:?
  | H : context [if ?c then _ else _] |- _ => destruct c eqn:?
  end.

Module Word.

Lemma locked_odd (s : Z) : locked s = true <-> s mod 2 = 1.
Proof. arith. Z.div_mod_to_equations; lia. Qed.

Lemma locked_even (s : Z) : locked s = false <-> s mod 2 = 0.
Proof. arith. Z.div_mod_to_equations; lia. Qed.

Lemma woken_mod (s : Z) : woken s = true <-> 2 <= s mod 4.
Proof. arith. Z.div_mod_to_equations; lia. Qed.

Lemma lor_woken_locked (s : Z) : locked (Z.lor s mutexWoken) = locked s.
Proof.
  destruct (locked s) eqn:E.
  - apply locked_odd. apply locked_odd in E. arith_lia.
  - apply locked_even. apply locked_even in E. arith_lia.
Qed.

Lemma lor_woken_waiters (s : Z) : waiters (Z.lor s mutexWoken) = waiters s.
Proof. arith_lia. Qed.

Lemma ldiff_woken (s : Z) : woken (Z.ldiff s mutexWoken) = false.
Proof.
  destruct (woken (Z.ldiff s mutexWoken)) eqn:E; [| reflexivity].
  exfalso. arith_lia.
Qed.

End Word.

(** ** Control points a call can reach *)

Lemma entry_ok (c : call) : frame_ok (entry c).
Proof. destruct c; exact I. Qed.

Lemma step_frame_ok (b : bool) (f f' : frame) (m m' : Mutex) (evs : list event) :
  frame_ok f -> step b f m = (Goto f', m', evs) -> frame_ok f'.
Proof.
  intros Hok Hstep. destruct f; simpl in Hstep;
    unfold CompareAndSwapInt32, AddInt32, runtime_Semacquire in Hstep;
    branches; inversion Hstep; subst; clear Hstep; simpl in *;
    unfold candidate in *; try exact I.
  all: unfold locked, woken, waiters in *;
    repeat match goal with
    | H : (_ && _) = true |- _ => apply andb_true_iff in H as [? ?]
    | H : (_ || _) = false |- _ => apply orb_false_iff in H as [? ?]
    | H : negb _ = true |- _ => apply negb_true_iff in H
    | H : negb _ = false |- _ => apply negb_false_iff in H
    | H : _ /\ _ |- _ => destruct H
    end; subst;
    repeat match goal with H : ?x = _ |- context [?x] => rewrite H end;
    repeat split; auto; try congruence.
  all: intros; branches; arith_lia.
Qed.

Lemma call_run_ok (env : list (bool * Mutex)) (f g : frame) :
  frame_ok f -> In g (fst (call_run env f)) -> frame_ok g.
Proof.
  revert f. induction env as [| [b m] env IH]; intros f Hok Hin; simpl in Hin.
  - destruct Hin as [<- | []]. exact Hok.
  - destruct (step b f m) as [[o m'] evs] eqn:Hstep. destruct o.
    + destruct (call_run env f0) as [fs tr] eqn:Hrun. simpl in Hin.
      destruct Hin as [<- | Hin]; [exact Hok |].
      apply (IH f0); [exact (step_frame_ok _ _ _ _ _ _ Hok Hstep) |].
      rewrite Hrun. exact Hin.
    + destruct Hin as [<- | []]. exact Hok.
    + destruct Hin as [<- | []]. exact Hok.
    + destruct (call_run env f) as [fs tr] eqn:Hrun. simpl in Hin.
      apply (IH f); [exact Hok |]. rewrite Hrun. exact Hin.
Qed.

(** ** Counting events *)

Lemma count_app (p : event -> bool) (a b : list event) :
  count p (a ++ b) = (count p a + count p b)%nat.
Proof. induction a as [| e a IH]; simpl; [reflexivity | rewrite IH; lia]. Qed.

Lemma step_semrelease (b : bool) (f : frame) (m : Mutex) :
  match step b f m with
  | (Goto _, _, evs) => count is_semrelease evs = 0%nat
  | (_, _, evs) => (count is_semrelease evs <= 1)%nat
  end.
Proof.
  destruct f; simpl;
    unfold CompareAndSwapInt32, AddInt32, runtime_Semacquire;
    branches; cbn; lia.
Qed.

Lemma call_run_semrelease (env : list (bool * Mutex)) (f : frame) :
  (count is_semrelease (snd (call_run env f)) <= 1)%nat.
Proof.
  revert f. induction env as [| [b m] env IH]; intros f; simpl.
  - cbn. lia.
  - pose proof (step_semrelease b f m) as Hs.
    destruct (step b f m) as [[o m'] evs]. destruct o.
    + specialize (IH f0). destruct (call_run env f0) as [fs tr]. simpl in *.
      rewrite count_app. lia.
    + exact Hs.
    + exact Hs.
    + specialize (IH f). destruct (call_run env f) as [fs tr]. exact IH.
Qed.

(** ** Lock *)

Section LockTransitions.

Variable canSpin : bool.
Variable m : Mutex.

(** C2. A call of Lock starts at the compare-and-swap of line 47, from 0
    to the locked bit.  On a mutex whose state is 0 it succeeds in that
    one transition: the call returns holding the lock, the state is the
    locked bit, the semaphore and the waiter count are untouched, and the
    transition shows neither a spin nor a semaphore call. *)
Theorem lock_fast_path :
  state m = 0 ->
  entry Lock = LFast /\
  step canSpin LFast m =
    (Return, mkMutex mutexLocked (sema m),
     [EvCAS 0 mutexLocked true; EvAcquired]) /\
  locked mutexLocked = true /\
  waiters mutexLocked = waiters (state m) /\
  count is_slow [EvCAS 0 mutexLocked true; EvAcquired] = 0%nat.
Proof.
  intros H0. split; [reflexivity |]. split.
  - simpl. unfold CompareAndSwapInt32, set_state. rewrite H0. reflexivity.
  - rewrite H0. repeat split.
Qed.

(** C7. At line 76, with [awoke] true: a candidate [new] without the
    woken bit is fatal ("sync: inconsistent mutex state") and leaves the
    mutex alone; otherwise control reaches the compare-and-swap of line 85
    with the woken bit cleared from [new].  Line 76 is where both ways of
    computing [new] (lines 60 and 74) arrive.  Hence, in a call of Lock
    under any interference, an awoken caller never attempts the
    compare-and-swap with the woken bit in [new], and Lock panics nowhere
    else. *)
Theorem lock_awoke_check (iter old new : Z) :
  step canSpin (LCheck true iter old new) m =
    (if woken new
     then (Goto (LCAS true iter old (Z.ldiff new mutexWoken)), m, [])
     else (Panic inconsistent_msg, m, [EvPanic inconsistent_msg])) /\
  woken (Z.ldiff new mutexWoken) = false /\
  (forall awoke, locked (state m) = false ->
     step canSpin (LLoad awoke iter) m =
       (Goto (LCheck awoke iter (state m) (Z.lor (state m) mutexLocked)), m,
        [EvLoad (state m)])) /\
  (forall awoke,
     step false (LCanSpin awoke iter old) m =
       (Goto (LCheck awoke iter old (Int32.add old (Z.shiftl 1 mutexWaiterShift))),
        m, [EvCanSpin iter false])) /\
  (forall env it o n,
     In (LCAS true it o n) (fst (call_run env LFast)) -> woken n = false) /\
  (forall f msg,
     in_unlock f = false -> fst (fst (step canSpin f m)) = Panic msg ->
     msg = inconsistent_msg /\
     exists it o n, f = LCheck true it o n /\ woken n = false).
Proof.
  split; [| split; [| split; [| split; [| split]]]].
  - simpl. unfold woken. destruct (Z.land new mutexWoken =? 0); reflexivity.
  - apply Word.ldiff_woken.
  - intros awoke Hl. simpl. unfold locked in Hl. rewrite Hl. reflexivity.
  - reflexivity.
  - intros env it o n Hin.
    destruct (call_run_ok env LFast _ I Hin) as [-> _]. apply Word.ldiff_woken.
  - intros f msg Hu Hp. destruct f; try discriminate;
      simpl in Hp; unfold CompareAndSwapInt32, runtime_Semacquire in Hp;
      branches; try discriminate.
    inversion Hp. split; [reflexivity |].
    eexists _, _, _. split; [reflexivity |]. unfold woken.
    match goal with H : (Z.land _ _ =? 0) = true |- _ => rewrite H end.
    reflexivity.
Qed.

(** C9. With the lock bit set in [old] and the spin advisor saying yes,
    the woken compare-and-swap of line 67 is attempted exactly when
    [awoke] is false, [old] has no woken bit and [old] counts a waiter;
    its success sets [awoke] and only the woken bit.  In every case one
    spin step follows, [iter] is incremented and the loop restarts at
    line 59; no transition on the way parks the goroutine or alters the
    waiter count.  In a call of Lock under any interference, the
    compare-and-swap of line 67 is reached only with those three
    conditions and the lock bit set in [old]. *)
Theorem lock_spin_path (awoke : bool) (iter old : Z) :
  (locked (state m) = true ->
     step canSpin (LLoad awoke iter) m =
       (Goto (LCanSpin awoke iter (state m)), m, [EvLoad (state m)])) /\
  step true (LCanSpin awoke iter old) m =
    (Goto (if negb awoke && negb (woken old) && negb (waiters old =? 0)
           then LSpinCAS awoke iter old
           else LDoSpin awoke iter),
     m, [EvCanSpin iter true]) /\
  step canSpin (LSpinCAS awoke iter old) m =
    (if state m =? old
     then (Goto (LDoSpin true iter), set_state m (Z.lor old mutexWoken),
           [EvCAS old (Z.lor old mutexWoken) true])
     else (Goto (LDoSpin awoke iter), m,
           [EvCAS old (Z.lor old mutexWoken) false])) /\
  waiters (Z.lor old mutexWoken) = waiters old /\
  locked (Z.lor old mutexWoken) = locked old /\
  step canSpin (LDoSpin awoke iter) m =
    (Goto (LLoad awoke (GoInt.incr iter)), m, [EvDoSpin]) /\
  (forall env a it o,
     In (LSpinCAS a it o) (fst (call_run env LFast)) ->
     a = false /\ locked o = true /\ woken o = false /\ waiters o <> 0).
Proof.
  split; [| split; [| split; [| split; [| split; [| split]]]]].
  7: { intros env a it o Hin. exact (call_run_ok env LFast _ I Hin). }
  6: reflexivity.
  - intros Hl. simpl. unfold locked in Hl. rewrite Hl. reflexivity.
  - simpl. unfold woken, waiters. rewrite negb_involutive.
    destruct (negb awoke && (Z.land old mutexWoken =? 0)
              && negb (Z.shiftr old mutexWaiterShift =? 0)); reflexivity.
  - simpl. unfold CompareAndSwapInt32. destruct (state m =? old); reflexivity.
  - apply Word.lor_woken_waiters.
  - apply Word.lor_woken_locked.
Qed.

(** A successful compare-and-swap at line 85 stores [new]; if [old] had no lock bit the call returns holding the
    lock, otherwise the goroutine goes to the semaphore acquire, where it
    stays parked while the semaphore is 0; when the acquire returns the
    loop restarts at line 59 with [awoke] true and [iter] 0, the state
    word as it was. *)
Lemma lock_cas_success (awoke : bool) (iter old new : Z) :
  state m = old ->
  step canSpin (LCAS awoke iter old new) m =
    (if locked old
     then (Goto LSema, set_state m new, [EvCAS old new true])
     else (Return, set_state m new, [EvCAS old new true; EvAcquired])).
Proof.
  intros <-. simpl. unfold CompareAndSwapInt32, locked. rewrite Z.eqb_refl.
  destruct (Z.land (state m) mutexLocked =? 0); reflexivity.
Qed.

Lemma lock_sema :
  step canSpin LSema m =
    (if 0 <? sema m
     then (Goto (LLoad true 0), mkMutex (state m) (sema m - 1), [EvSemacquire])
     else (Block, m, [])).
Proof.
  simpl. unfold runtime_Semacquire. destruct (0 <? sema m); reflexivity.
Qed.

End LockTransitions.

(** One more waiter than [old], whether or not the woken bit is cleared. *)
Lemma candidate_locked (awoke : bool) (old new : Z) :
  frame_ok (LCAS awoke 0 old new) -> locked old = true ->
  new = (if awoke
         then Z.ldiff (Int32.add old (Z.shiftl 1 mutexWaiterShift)) mutexWoken
         else Int32.add old (Z.shiftl 1 mutexWaiterShift)) /\
  waiters new = waiters (Int32.add old (Z.shiftl 1 mutexWaiterShift)) /\
  locked new = true.
Proof.
  intros [Hnew Hw] Hl. unfold candidate in *. rewrite Hl in *.
  split; [exact Hnew |]. subst new. destruct awoke.
  - specialize (Hw eq_refl). split.
    + arith_lia.
    + apply Word.locked_odd. apply Word.locked_odd in Hl. arith_lia.
  - split; [reflexivity |].
    apply Word.locked_odd. apply Word.locked_odd in Hl. arith_lia.
Qed.

(** C5. In the slow path of Lock a successful compare-and-swap at line 85
    ends the call with the lock held when [old] had no lock bit; otherwise
    the caller, whose [new] is [old] plus one waiter, parks on the semaphore
    acquire, and the return of the acquire only restarts the loop with
    [awoke] true and [iter] 0: the lock bit is not granted by the wake. *)
Theorem lock_slow_cas (canSpin : bool) (m : Mutex) (awoke : bool) (iter old new : Z) :
  state m = old ->
  step canSpin (LCAS awoke iter old new) m =
    (if locked old
     then (Goto LSema, set_state m new, [EvCAS old new true])
     else (Return, set_state m new, [EvCAS old new true; EvAcquired])) /\
  (forall env, In (LCAS awoke iter old new) (fst (call_run env LFast)) ->
     locked old = true ->
     new = (if awoke
            then Z.ldiff (Int32.add old (Z.shiftl 1 mutexWaiterShift)) mutexWoken
            else Int32.add old (Z.shiftl 1 mutexWaiterShift)) /\
     waiters new = waiters (Int32.add old (Z.shiftl 1 mutexWaiterShift))) /\
  (forall m', step canSpin LSema m' =
     (if 0 <? sema m'
      then (Goto (LLoad true 0), mkMutex (state m') (sema m' - 1), [EvSemacquire])
      else (Block, m', []))).
Proof.
  intros Hst. split; [exact (lock_cas_success canSpin m awoke iter old new Hst) |].
  split; [| intros m'; apply lock_sema].
  intros env Hin Hl.
  pose proof (call_run_ok env LFast _ I Hin) as Hok.
  destruct (candidate_locked awoke old new Hok Hl) as (H1 & H2 & _).
  split; assumption.
Qed.

(** ** Unlock *)

Lemma unlock_add (canSpin : bool) (m : Mutex) :
  step canSpin UAdd m =
    (let new := Int32.sub (state m) mutexLocked in
     if locked (state m)
     then (Goto (UCheck new), set_state m new,
           [EvAdd (- mutexLocked) new; EvReleased])
     else (Panic unlocked_msg, set_state m new,
           [EvAdd (- mutexLocked) new; EvPanic unlocked_msg])).
Proof.
  simpl. unfold AddInt32.
  change (Int32.add (state m) (- mutexLocked)) with (Int32.sub (state m) mutexLocked).
  assert (H : (Z.land (Int32.add (Int32.sub (state m) mutexLocked) mutexLocked)
                 mutexLocked =? 0) = negb (locked (state m))).
  { destruct (locked (state m)) eqn:E; simpl.
    - apply Word.locked_odd in E. apply Z.eqb_neq. arith_lia.
    - apply Word.locked_even in E. apply Z.eqb_eq. arith_lia. }
  rewrite H. destruct (locked (state m)); reflexivity.
Qed.

Lemma sub_locked_changes (s : Z) : Int32.sub s mutexLocked <> s.
Proof. arith_lia. Qed.

(** A dead process takes no transition. *)
Lemma exec_fatal (sched : list (nat * bool)) (s : system) :
  fatal s <> None -> exec sched s = (s, []).
Proof.
  intros Hf. induction sched as [| [i b] sched IH]; simpl; [reflexivity |].
  unfold sys_step. destruct (fatal s) eqn:E; [| congruence].
  rewrite IH. reflexivity.
Qed.

(** C3. Unlock's first transition replaces the state by the state minus the
    locked bit, in one atomic step, and is fatal with "sync: unlock of
    unlocked mutex" exactly when the locked bit was clear in the state it
    subtracted from; no later transition of Unlock panics.  So Unlock on the
    zero mutex is fatal, and after one Lock a first Unlock returns and a
    second one is fatal. *)
Theorem unlock_fatal_iff (canSpin : bool) (m : Mutex) :
  (exists o evs,
     step canSpin UAdd m = (o, set_state m (Int32.sub (state m) mutexLocked), evs)
     /\ (o = Panic unlocked_msg <-> locked (state m) = false)
     /\ (forall msg, o = Panic msg -> msg = unlocked_msg)) /\
  (forall f b m' msg,
     in_unlock f = true -> fst (fst (step b f m')) = Panic msg -> f = UAdd) /\
  (forall answers, length answers = 2%nat ->
     fatal (fst (exec (alone answers) (boot [[Unlock]]))) = Some unlocked_msg) /\
  (forall answers, length answers = 5%nat ->
     fst (exec (alone answers) (boot [[Lock; Unlock; Unlock]])) =
       mkSys zeroMutex [mkG [Unlock] None] None) /\
  (forall answers, length answers = 7%nat ->
     fatal (fst (exec (alone answers) (boot [[Lock; Unlock; Unlock]]))) =
       Some unlocked_msg).
Proof.
  split; [| repeat split].
  - rewrite unlock_add. cbv zeta. destruct (locked (state m)) eqn:E.
    + eexists _, _. split; [reflexivity |]. split; [| discriminate].
      split; discriminate.
    + eexists _, _. split; [reflexivity |]. split; [tauto |].
      intros msg H. inversion H. reflexivity.
  - intros f b m' msg Hu Hp. destruct f; try discriminate; try reflexivity;
      simpl in Hp; unfold CompareAndSwapInt32 in Hp; branches; discriminate.
  - intros a H. do 3 (destruct a as [| ? a]; try discriminate). reflexivity.
  - intros a H. do 6 (destruct a as [| ? a]; try discriminate). reflexivity.
  - intros a H. do 8 (destruct a as [| ? a]; try discriminate). reflexivity.
Qed.

(** C10. When Unlock is fatal, the subtraction of the locked bit has
    already been stored: the state word differs from the one on entry, the
    transition that panics is the one that wrote it, and nothing runs
    afterwards to put the old value back. *)
Theorem unlock_fatal_keeps_decrement (canSpin : bool) (i : nat) (s : system) (g : goroutine) :
  fatal s = None -> gs s !! i = Some g -> pc g = Some UAdd ->
  locked (state (mu s)) = false ->
  exists s',
    sys_step i canSpin s =
      (s', [EvAdd (- mutexLocked) (state (mu s')); EvPanic unlocked_msg])
    /\ fatal s' = Some unlocked_msg
    /\ state (mu s') = Int32.sub (state (mu s)) mutexLocked
    /\ state (mu s') <> state (mu s)
    /\ forall sched, fst (exec sched s') = s'.
Proof.
  intros Hf Hg Hpc Hl. unfold sys_step. rewrite Hf, Hg, Hpc, unlock_add, Hl.
  cbv zeta.
  exists (mkSys (set_state (mu s) (Int32.sub (state (mu s)) mutexLocked))
            (gs s) (Some unlocked_msg)).
  split; [reflexivity |]. simpl.
  split; [reflexivity |]. split; [reflexivity |].
  split; [apply sub_locked_changes |].
  intros sched. rewrite exec_fatal; [reflexivity | discriminate].
Qed.

Lemma unlock_check_test (old : Z) :
  (Z.shiftr old mutexWaiterShift =? 0)
  || negb (Z.land old (Z.lor mutexLocked mutexWoken) =? 0)
  = (waiters old =? 0) || woken old || locked old.
Proof.
  unfold waiters. rewrite <- orb_assoc. f_equal.
  destruct (woken old) eqn:Ew, (locked old) eqn:El; simpl.
  all: try (apply negb_true_iff, Z.eqb_neq).
  all: try (apply negb_false_iff, Z.eqb_eq).
  all: try apply Word.locked_odd in El; try apply Word.locked_even in El.
  all: try apply Word.woken_mod in Ew.
  - arith_lia.
  - arith_lia.
  - arith_lia.
  - assert (~ 2 <= old mod 4).
    { intros H. apply Word.woken_mod in H. congruence. }
    arith_lia.
Qed.

(** C4. In the wake loop, for the state [old] observed at line 124: with no
    waiter, or the woken bit, or the locked bit, Unlock returns and the
    semaphore is not released; otherwise it attempts one compare-and-swap
    from [old] to [old] less one waiter with the woken bit set, whose
    success leads to one semaphore release followed by the return.  Under
    any interference, a call of Unlock releases the semaphore at most
    once. *)
Theorem unlock_wake_loop (canSpin : bool) (m : Mutex) (old : Z) :
  step canSpin (UCheck old) m =
    (if (waiters old =? 0) || woken old || locked old
     then (Return, m, [EvUnlockReturn])
     else (Goto (UCAS old (Z.lor (Int32.sub old (Z.shiftl 1 mutexWaiterShift))
                                 mutexWoken)), m, [])) /\
  (forall new, state m = old ->
     step canSpin (UCAS old new) m =
       (Goto USema, set_state m new, [EvCAS old new true])) /\
  step canSpin USema m =
    (Return, runtime_Semrelease m, [EvSemrelease; EvUnlockReturn]) /\
  (forall env, (count is_semrelease (snd (call_run env UAdd)) <= 1)%nat).
Proof.
  repeat split.
  - simpl. rewrite unlock_check_test.
    destruct ((waiters old =? 0) || woken old || locked old); reflexivity.
  - intros new <-. simpl. unfold CompareAndSwapInt32. rewrite Z.eqb_refl.
    reflexivity.
  - intros env. apply call_run_semrelease.
Qed.

(** ** Invariants of the interleaving *)

Lemma boot_ok (progs : list (list call)) : sys_ok (boot progs).
Proof.
  unfold sys_ok, boot. simpl. induction progs as [| p progs IH]; simpl.
  - constructor.
  - constructor; [exact I | exact IH].
Qed.

Lemma sys_step_ok (i : nat) (b : bool) (s : system) :
  sys_ok s -> sys_ok (fst (sys_step i b s)).
Proof.
  intros Hok. unfold sys_step.
  destruct (fatal s); [exact Hok |].
  destruct (gs s !! i) as [g |] eqn:Hg; [| exact Hok].
  pose proof (proj1 (Forall_lookup _ _) Hok i g Hg) as Hgok.
  unfold goroutine_ok in Hgok.
  destruct (pc g) as [f |] eqn:Hpc.
  - destruct (step b f (mu s)) as [[o m'] evs] eqn:Hstep.
    destruct o; simpl; try exact Hok.
    + apply Forall_insert; [exact Hok |].
      exact (step_frame_ok _ _ _ _ _ _ Hgok Hstep).
    + apply Forall_insert; [exact Hok | exact I].
  - destruct (pending g) as [| c rest]; [exact Hok |]. simpl.
    apply Forall_insert; [exact Hok |]. apply entry_ok.
Qed.

Lemma exec_ok (sched : list (nat * bool)) (s : system) :
  sys_ok s -> sys_ok (fst (exec sched s)).
Proof.
  revert s. induction sched as [| [i b] sched IH]; intros s Hok; simpl.
  - exact Hok.
  - pose proof (sys_step_ok i b s Hok) as H1.
    destruct (sys_step i b s) as [s1 e1]. simpl in H1.
    specialize (IH s1 H1). destruct (exec sched s1) as [s2 e2]. exact IH.
Qed.

(** *** The lock bit follows acquisitions and releases *)

Lemma step_balance (b : bool) (f : frame) (m m' : Mutex) (o : outcome)
    (evs : list event) :
  frame_ok f -> step b f m = (o, m', evs) ->
  match o with
  | Panic _ =>
      count is_acquired evs = 0%nat /\ count is_released evs = 0%nat /\
      (m' = m \/ f = UAdd /\ locked (state m) = false)
  | _ =>
      (b2n (locked (state m)) + count is_acquired evs =
       b2n (locked (state m')) + count is_released evs)%nat
  end.
Proof.
  intros Hok Hstep. destruct f.
  all: try rewrite unlock_add in Hstep; cbv zeta in Hstep.
  all: simpl in Hstep;
    unfold CompareAndSwapInt32, runtime_Semacquire, runtime_Semrelease in Hstep;
    branches; inversion Hstep; subst; clear Hstep; simpl; auto.
  all: repeat match goal with
       | H : (_ =? _) = true |- _ => apply Z.eqb_eq in H
       end; subst.
  - match goal with H : state m = 0 |- _ => rewrite H end. reflexivity.
  - rewrite Word.lor_woken_locked. lia.
  - assert (Hl : locked (state m) = false).
    { unfold locked.
      match goal with H : Z.land _ _ = 0 |- _ => rewrite H end. reflexivity. }
    destruct Hok as [Hnew Hw]. rewrite Hl. simpl.
    assert (Hn : locked new = true).
    { apply Word.locked_odd. apply Word.locked_even in Hl.
      unfold candidate in *. subst new. clear Hw.
      destruct awoke; branches; arith_lia. }
    rewrite Hn. reflexivity.
  - assert (Hl : locked (state m) = true).
    { unfold locked.
      match goal with H : (Z.land _ _ =? 0) = false |- _ => rewrite H end.
      reflexivity. }
    destruct (candidate_locked awoke (state m) new Hok Hl) as (_ & _ & Hn).
    rewrite Hl, Hn. reflexivity.
  - assert (Hn : locked (Int32.sub (state m) mutexLocked) = false).
    { match goal with H : locked _ = true |- _ => apply Word.locked_odd in H end.
      apply Word.locked_even. arith_lia. }
    rewrite Hn. reflexivity.
  - destruct Hok as (Hnew & Hl & _). rewrite Hl. simpl.
    assert (Hn : locked new = false).
    { apply Word.locked_even. apply Word.locked_even in Hl. subst new. arith_lia. }
    rewrite Hn. reflexivity.
Qed.

Lemma sys_step_balanced (i : nat) (b : bool) (s : system) (a r : nat) :
  sys_ok s -> balanced s a r ->
  balanced (fst (sys_step i b s))
    (a + count is_acquired (snd (sys_step i b s)))
    (r + count is_released (snd (sys_step i b s))).
Proof.
  intros Hok Hbal. unfold sys_step.
  destruct (fatal s) eqn:Hf; simpl; [rewrite !Nat.add_0_r; exact Hbal |].
  destruct (gs s !! i) as [g |] eqn:Hg; simpl; [| rewrite !Nat.add_0_r; exact Hbal].
  pose proof (proj1 (Forall_lookup _ _) Hok i g Hg) as Hgok.
  unfold goroutine_ok in Hgok.
  destruct (pc g) as [f |] eqn:Hpc.
  - destruct (step b f (mu s)) as [[o m'] evs] eqn:Hstep.
    pose proof (step_balance b f (mu s) m' o evs Hgok Hstep) as Hb.
    unfold balanced in *. rewrite Hf in Hbal.
    destruct o; simpl.
    + lia.
    + lia.
    + destruct Hb as (Ha & Hr & _). rewrite Ha, Hr.
      destruct (locked (state (mu s))); simpl in Hbal; lia.
    + rewrite Hf. lia.
  - destruct (pending g) as [| c rest]; simpl; rewrite !Nat.add_0_r;
      unfold balanced in *; simpl; rewrite Hf in Hbal; [rewrite Hf |]; exact Hbal.
Qed.

Lemma exec_balanced (sched : list (nat * bool)) (s : system) (a r : nat) :
  sys_ok s -> balanced s a r ->
  balanced (fst (exec sched s))
    (a + count is_acquired (snd (exec sched s)))
    (r + count is_released (snd (exec sched s))).
Proof.
  revert s a r. induction sched as [| [i b] sched IH]; intros s a r Hok Hbal; simpl.
  - rewrite !Nat.add_0_r. exact Hbal.
  - pose proof (sys_step_ok i b s Hok) as Hok1.
    pose proof (sys_step_balanced i b s a r Hok Hbal) as Hb1.
    destruct (sys_step i b s) as [s1 e1]. simpl in Hok1, Hb1.
    specialize (IH s1 _ _ Hok1 Hb1).
    destruct (exec sched s1) as [s2 e2]. simpl in *.
    rewrite !count_app, !Nat.add_assoc. exact IH.
Qed.

(** *** Callers that pair Lock with Unlock *)

Lemma holders_insert (l : list goroutine) (i : nat) (g g' : goroutine) :
  l !! i = Some g ->
  (holders (<[i:=g']> l) + b2n (holding g) = holders l + b2n (holding g'))%nat.
Proof.
  revert i. induction l as [| x l IH]; intros i Hl; [discriminate |].
  destruct i as [| i]; simpl in *.
  - inversion Hl; subst. destruct (holding g), (holding g'); simpl; lia.
  - specialize (IH i Hl). lia.
Qed.

Lemma holders_lookup (l : list goroutine) (i : nat) (g : goroutine) :
  l !! i = Some g -> holding g = true -> (1 <= holders l)%nat.
Proof.
  revert i. induction l as [| x l IH]; intros i Hl Hh; [discriminate |].
  destruct i as [| i]; simpl in *.
  - inversion Hl; subst. rewrite Hh. lia.
  - specialize (IH i Hl Hh). lia.
Qed.

Lemma paired_lock_tail (p : list call) :
  paired (Lock :: p) = true -> exists rest, p = Unlock :: rest /\ paired rest = true.
Proof.
  destruct p as [| [|] rest]; simpl; try discriminate. eauto.
Qed.

Lemma paired_not_unlock (p : list call) :
  paired p = true -> match p with Unlock :: _ => False | _ => True end.
Proof. destruct p as [| [|] rest]; simpl; auto; discriminate. Qed.

Lemma step_holding (b : bool) (g : goroutine) (f : frame) (m m' : Mutex)
    (o : outcome) (evs : list event) :
  goroutine_paired g = true -> pc g = Some f -> step b f m = (o, m', evs) ->
  match o with
  | Goto _ | Return =>
      goroutine_paired (resume g o) = true /\
      (b2n (holding (resume g o)) + count is_released evs =
       b2n (holding g) + count is_acquired evs)%nat
  | Panic _ | Block => True
  end.
Proof.
  intros Hp Hpc Hstep. destruct g as [p pcg]. simpl in Hpc. subst pcg.
  unfold goroutine_paired in Hp. simpl in Hp.
  destruct f; simpl in Hp.
  all: try rewrite unlock_add in Hstep; cbv zeta in Hstep.
  all: simpl in Hstep;
    unfold CompareAndSwapInt32, runtime_Semacquire, runtime_Semrelease in Hstep;
    branches; inversion Hstep; subst; clear Hstep;
    unfold goroutine_paired, holding; simpl; auto.
  all: try (apply paired_lock_tail in Hp as (rest & -> & Hr); simpl;
            rewrite Hr; auto).
  all: try (pose proof (paired_not_unlock p Hp) as Hn; rewrite Hp;
            destruct p as [| [|] rest]; simpl; auto; contradiction).
Qed.

Lemma sys_step_paired (i : nat) (b : bool) (s : system) :
  sys_ok s -> paired_inv s -> paired_inv (fst (sys_step i b s)).
Proof.
  intros Hok [Hall Hcount]. unfold sys_step.
  destruct (fatal s) eqn:Hf; [split; assumption |].
  destruct (gs s !! i) as [g |] eqn:Hg; [| split; assumption].
  pose proof (proj1 (Forall_lookup _ _) Hok i g Hg) as Hgok.
  pose proof (proj1 (Forall_lookup _ _) Hall i g Hg) as Hgp. simpl in Hgp.
  unfold goroutine_ok in Hgok.
  destruct (pc g) as [f |] eqn:Hpc.
  - destruct (step b f (mu s)) as [[o m'] evs] eqn:Hstep.
    pose proof (step_balance b f (mu s) m' o evs Hgok Hstep) as Hb.
    pose proof (step_holding b g f (mu s) m' o evs Hgp Hpc Hstep) as Hh.
    destruct o; simpl.
    + destruct Hh as [Hp' Hh]. split; simpl.
      * apply Forall_insert; assumption.
      * pose proof (holders_insert (gs s) i g (resume g (Goto f0)) Hg) as Hi.
        simpl in Hi, Hh. lia.
    + destruct Hh as [Hp' Hh]. split; simpl.
      * apply Forall_insert; assumption.
      * pose proof (holders_insert (gs s) i g (resume g Return) Hg) as Hi.
        simpl in Hi, Hh. lia.
    + destruct Hb as (_ & _ & [-> | [-> Hl]]); [split; assumption |].
      assert (Hhold : holding g = true) by (unfold holding; rewrite Hpc; reflexivity).
      pose proof (holders_lookup _ _ _ Hg Hhold) as Hge.
      rewrite Hcount, Hl in Hge. simpl in Hge. lia.
    + split; assumption.
  - destruct (pending g) as [| c rest] eqn:Hpend; [split; assumption |].
    unfold goroutine_paired in Hgp. rewrite Hpc, Hpend in Hgp.
    pose proof (holders_insert (gs s) i g (mkG rest (Some (entry c))) Hg) as Hi.
    assert (Hsame : holding (mkG rest (Some (entry c))) = holding g).
    { unfold holding. rewrite Hpc, Hpend. destruct c; reflexivity. }
    rewrite Hsame in Hi. split; simpl; [| lia].
    apply Forall_insert; [assumption |].
    unfold goroutine_paired. simpl. destruct c; simpl.
    + apply orb_true_iff in Hgp as [Hgp | Hgp]; [exact Hgp |].
      simpl in Hgp. discriminate.
    + apply orb_true_iff in Hgp as [Hgp | Hgp]; [discriminate | exact Hgp].
Qed.

Lemma exec_paired (sched : list (nat * bool)) (s : system) :
  sys_ok s -> paired_inv s -> paired_inv (fst (exec sched s)).
Proof.
  revert s. induction sched as [| [i b] sched IH]; intros s Hok Hinv; simpl.
  - exact Hinv.
  - pose proof (sys_step_ok i b s Hok) as Hok1.
    pose proof (sys_step_paired i b s Hok Hinv) as Hinv1.
    destruct (sys_step i b s) as [s1 e1]. simpl in Hok1, Hinv1.
    specialize (IH s1 Hok1 Hinv1). destruct (exec sched s1) as [s2 e2]. exact IH.
Qed.

Lemma boot_paired (progs : list (list call)) :
  forallb paired progs = true -> paired_inv (boot progs).
Proof.
  intros Hp. unfold paired_inv, boot. simpl.
  induction progs as [| p progs IH]; simpl in *.
  - split; [constructor | reflexivity].
  - apply andb_true_iff in Hp as [Hp Hps]. destruct (IH Hps) as [IH1 IH2]. split.
    + constructor; [| exact IH1].
      unfold goroutine_paired. simpl. rewrite Hp. reflexivity.
    + unfold holding at 1. simpl.
      pose proof (paired_not_unlock p Hp) as Hn.
      destruct p as [| [|] rest]; simpl; try contradiction; exact IH2.
Qed.

(** ** Mutual exclusion *)

(** C1. For any number of goroutines making any sequences of Lock and
    Unlock calls on one mutex, under any schedule: the locks acquired and
    not yet released are never more than one, and as long as no panic ended
    the process their number is the locked bit of the state word.  When
    every goroutine pairs each Lock with a following Unlock of its own, at
    most one goroutine at a time is between the return of its Lock and the
    subtraction of its Unlock, and one is exactly when the locked bit is
    set. *)
Theorem mutual_exclusion (progs : list (list call)) (sched : list (nat * bool)) :
  0 <= outstanding (snd (exec sched (boot progs))) <= 1 /\
  (fatal (fst (exec sched (boot progs))) = None ->
   outstanding (snd (exec sched (boot progs))) =
     Z.of_nat (b2n (locked (state (mu (fst (exec sched (boot progs)))))))) /\
  (forallb paired progs = true ->
   (holders (gs (fst (exec sched (boot progs)))) <= 1)%nat /\
   holders (gs (fst (exec sched (boot progs)))) =
     b2n (locked (state (mu (fst (exec sched (boot progs))))))).
Proof.
  pose proof (exec_balanced sched (boot progs) 0 0 (boot_ok progs) eq_refl) as Hb.
  simpl in Hb. unfold balanced in Hb. unfold outstanding.
  split; [| split].
  - destruct (fatal (fst (exec sched (boot progs)))).
    + lia.
    + destruct (locked _); simpl in Hb; lia.
  - intros Hf. rewrite Hf in Hb. lia.
  - intros Hp.
    destruct (exec_paired sched (boot progs) (boot_ok progs) (boot_paired progs Hp))
      as [_ Hc].
    split; [| exact Hc]. rewrite Hc. destruct (locked _); simpl; lia.
Qed.

(** ** The woken bit *)

Lemma step_woken (b : bool) (f : frame) (m m' : Mutex) (o : outcome)
    (evs : list event) :
  frame_ok f -> step b f m = (o, m', evs) ->
  woken (state m) = false -> woken (state m') = true ->
  (exists msg, o = Panic msg) \/ waiters (state m) <> 0.
Proof.
  intros Hok Hstep H0 H1. destruct f.
  all: try rewrite unlock_add in Hstep; cbv zeta in Hstep.
  all: simpl in Hstep;
    unfold CompareAndSwapInt32, runtime_Semacquire, runtime_Semrelease in Hstep;
    branches; inversion Hstep; subst; clear Hstep; simpl in *; eauto.
  all: try congruence.
  all: repeat match goal with
       | H : (_ =? _) = true |- _ => apply Z.eqb_eq in H
       end; subst.
  - right. tauto.
  - exfalso. destruct Hok as [Hnew _]. unfold candidate in Hnew. subst new.
    assert (Hw : ~ 2 <= state m mod 4).
    { intros H. apply Word.woken_mod in H. congruence. }
    apply Word.woken_mod in H1. clear H0.
    destruct awoke; branches; arith_lia.
  - exfalso. destruct Hok as [Hnew _]. unfold candidate in Hnew. subst new.
    assert (Hw : ~ 2 <= state m mod 4).
    { intros H. apply Word.woken_mod in H. congruence. }
    apply Word.woken_mod in H1. clear H0.
    destruct awoke; branches; arith_lia.
  - exfalso.
    assert (Hw : ~ 2 <= state m mod 4).
    { intros H. apply Word.woken_mod in H. congruence. }
    apply Word.woken_mod in H1.
    match goal with H : locked _ = true |- _ => apply Word.locked_odd in H end.
    clear H0. arith_lia.
  - right. tauto.
Qed.

(** C6, as the data model words it, fails: in the scenario of the
    specification, once A's Unlock has won its compare-and-swap the state
    word is 2, woken set with a waiter count of 0. *)
Lemma woken_without_waiter :
  state (mu (fst (exec wake_schedule two_units))) = 2 /\
  woken 2 = true /\ waiters 2 = 0 /\
  fatal (fst (exec wake_schedule two_units)) = None /\
  ~ woken_needs_waiter (state (mu (fst (exec wake_schedule two_units)))).
Proof.
  repeat split. intros H. specialize (H eq_refl). vm_compute in H.
  apply H. reflexivity.
Qed.

(** C6, amended.  In every reachable state of any system of callers, a
    transition of Lock or Unlock that does not panic and turns the woken
    bit on starts from a state word whose waiter count is not zero (at
    least one when the word is not negative). *)
Theorem woken_set_needs_waiter (progs : list (list call))
    (sched : list (nat * bool)) (i : nat) (b : bool) :
  fatal (fst (sys_step i b (fst (exec sched (boot progs))))) = None ->
  woken (state (mu (fst (exec sched (boot progs))))) = false ->
  woken (state (mu (fst (sys_step i b (fst (exec sched (boot progs))))))) = true ->
  waiters (state (mu (fst (exec sched (boot progs))))) <> 0 /\
  (0 <= state (mu (fst (exec sched (boot progs)))) ->
   1 <= waiters (state (mu (fst (exec sched (boot progs)))))).
Proof.
  pose proof (exec_ok sched (boot progs) (boot_ok progs)) as Hok.
  set (s := fst (exec sched (boot progs))) in *. clearbody s.
  intros Hf H0 H1.
  assert (Hw : waiters (state (mu s)) <> 0).
  { unfold sys_step in Hf, H1.
    destruct (fatal s) eqn:Hfs; [simpl in H1; congruence |].
    destruct (gs s !! i) as [g |] eqn:Hg; [| simpl in H1; congruence].
    pose proof (proj1 (Forall_lookup _ _) Hok i g Hg) as Hgok.
    unfold goroutine_ok in Hgok.
    destruct (pc g) as [f |] eqn:Hpc.
    - destruct (step b f (mu s)) as [[o m'] evs] eqn:Hstep.
      destruct o; simpl in Hf, H1; try congruence.
      + destruct (step_woken b f (mu s) m' _ evs Hgok Hstep H0 H1) as [[msg Hm] | Hw];
          [discriminate | exact Hw].
      + destruct (step_woken b f (mu s) m' _ evs Hgok Hstep H0 H1) as [[msg Hm] | Hw];
          [discriminate | exact Hw].
    - destruct (pending g); simpl in H1; congruence. }
  split; [exact Hw |]. intros Hpos. arith_lia.
Qed.

(** ** Lock then Unlock, alone *)

Lemma solo_index (t t' : nat) (s : system) : t = t' -> solo t s -> solo t' s.
Proof. intros <-. exact id. Qed.

Lemma solo_step (t : nat) (s : system) (b : bool) :
  solo t s ->
  solo (t - 1) (fst (sys_step 0 b s)) /\ count is_slow (snd (sys_step 0 b s)) = 0%nat.
Proof.
  intros H. destruct H as [k | k | k | k | k]; (split; [| destruct k; reflexivity]).
  - destruct k as [| k].
    + exact (solo_idle 0).
    + apply (solo_index (5 * k + 4)); [lia | exact (solo_fast k)].
  - apply (solo_index (5 * k + 3)); [lia | exact (solo_held k)].
  - apply (solo_index (5 * k + 2)); [lia | exact (solo_add k)].
  - apply (solo_index (5 * k + 1)); [lia | exact (solo_check k)].
  - apply (solo_index (5 * k)); [lia | exact (solo_idle k)].
Qed.

Lemma solo_exec (answers : list bool) (t : nat) (s : system) :
  solo t s ->
  solo (t - length answers) (fst (exec (alone answers) s)) /\
  count is_slow (snd (exec (alone answers) s)) = 0%nat.
Proof.
  revert t s. induction answers as [| b answers IH]; intros t s H; simpl.
  - rewrite Nat.sub_0_r. split; [exact H | reflexivity].
  - destruct (solo_step t s b H) as [H1 E1].
    destruct (sys_step 0 b s) as [s1 e1]. simpl in H1, E1.
    destruct (IH _ _ H1) as [H2 E2].
    destruct (exec (alone answers) s1) as [s2 e2]. simpl in *.
    rewrite count_app, E1, E2. split; [| reflexivity].
    replace (t - S (length answers))%nat with (t - 1 - length answers)%nat by lia.
    exact H2.
Qed.

Lemma solo_quiet (t : nat) (s : system) :
  solo t s -> sema (mu s) = 0 /\ fatal s = None /\
  (t = 0%nat -> s = mkSys zeroMutex [mkG [] None] None).
Proof.
  intros H. destruct H as [k | k | k | k | k]; simpl; repeat split; try lia.
  intros Hk. assert (k = 0%nat) by lia. subst k. reflexivity.
Qed.

(** C8. The zero value is an unlocked mutex, and on it one goroutine alone
    doing Lock then Unlock brings the state word back to 0 in five
    transitions, none of which spins or calls the semaphore.  The same
    holds for any number of rounds and at every instant on the way:
    whatever the spin advisor would answer, the trace shows no spin and no
    semaphore call, the semaphore stays 0 and the process does not panic;
    after five transitions per round the mutex is again the zero value. *)
Theorem lock_unlock_uncontended (n : nat) (answers : list bool) :
  locked (state zeroMutex) = false /\
  (length answers = 5%nat ->
   exec (alone answers) (boot [[Lock; Unlock]]) =
     (mkSys zeroMutex [mkG [] None] None,
      [EvCAS 0 mutexLocked true; EvAcquired;
       EvAdd (- mutexLocked) 0; EvReleased; EvUnlockReturn])) /\
  count is_slow (snd (exec (alone answers) (boot [rounds n]))) = 0%nat /\
  sema (mu (fst (exec (alone answers) (boot [rounds n])))) = 0 /\
  fatal (fst (exec (alone answers) (boot [rounds n]))) = None /\
  ((5 * n <= length answers)%nat ->
   fst (exec (alone answers) (boot [rounds n])) =
     mkSys zeroMutex [mkG [] None] None).
Proof.
  split; [reflexivity |]. split.
  { intros H. do 6 (destruct answers as [| ? answers]; try discriminate).
    reflexivity. }
  destruct (solo_exec answers _ _ (solo_idle n)) as [Hs Hq].
  destruct (solo_quiet _ _ Hs) as (Hsema & Hfatal & Hend).
  repeat split; try assumption.
  intros Hlen. apply Hend. lia.
Qed.

(** ** The theorems at concrete inputs *)

Lemma mutual_exclusion_witness :
  forallb paired [[Lock; Unlock]; [Lock; Unlock]] = true /\
  fatal (fst (exec hold_schedule (boot [[Lock; Unlock]; [Lock; Unlock]]))) = None /\
  outstanding (snd (exec hold_schedule (boot [[Lock; Unlock]; [Lock; Unlock]]))) = 1 /\
  holders (gs (fst (exec hold_schedule (boot [[Lock; Unlock]; [Lock; Unlock]])))) = 1%nat.
Proof.
  destruct (mutual_exclusion [[Lock; Unlock]; [Lock; Unlock]] hold_schedule)
    as (_ & Hout & Hhold).
  split; [reflexivity |]. split; [reflexivity |]. split.
  - rewrite (Hout eq_refl). reflexivity.
  - rewrite (proj2 (Hhold eq_refl)). reflexivity.
Defined.

Lemma lock_fast_path_witness :
  state zeroMutex = 0 /\
  step true LFast zeroMutex =
    (Return, mkMutex mutexLocked 0, [EvCAS 0 mutexLocked true; EvAcquired]).
Proof.
  split; [reflexivity |].
  exact (proj1 (proj2 (lock_fast_path true zeroMutex eq_refl))).
Defined.

Lemma unlock_fatal_iff_witness :
  length [true; false] = 2%nat /\
  fatal (fst (exec (alone [true; false]) (boot [[Unlock]]))) = Some unlocked_msg /\
  length [true; true; true; true; true; true; true] = 7%nat /\
  fatal (fst (exec (alone [true; true; true; true; true; true; true])
                   (boot [[Lock; Unlock; Unlock]]))) = Some unlocked_msg.
Proof.
  destruct (unlock_fatal_iff true zeroMutex) as (_ & _ & H2 & _ & H7).
  split; [reflexivity |]. split; [exact (H2 [true; false] eq_refl) |].
  split; [reflexivity |].
  exact (H7 [true; true; true; true; true; true; true] eq_refl).
Defined.

Lemma unlock_wake_loop_witness :
  state (mkMutex 4 0) = 4 /\
  step false (UCheck 4) (mkMutex 4 0) = (Goto (UCAS 4 2), mkMutex 4 0, []) /\
  step false (UCAS 4 2) (mkMutex 4 0) = (Goto USema, mkMutex 2 0, [EvCAS 4 2 true]) /\
  step false USema (mkMutex 2 0) = (Return, mkMutex 2 1, [EvSemrelease; EvUnlockReturn]).
Proof.
  destruct (unlock_wake_loop false (mkMutex 4 0) 4) as (H1 & H2 & _ & _).
  destruct (unlock_wake_loop false (mkMutex 2 0) 2) as (_ & _ & H3 & _).
  split; [reflexivity |]. split; [exact H1 |]. split; [exact (H2 2 eq_refl) |].
  exact H3.
Defined.

Lemma lock_slow_cas_witness :
  state (mkMutex 1 0) = 1 /\
  step false (LCAS false 0 1 5) (mkMutex 1 0) =
    (Goto LSema, mkMutex 5 0, [EvCAS 1 5 true]) /\
  step false LSema (mkMutex 5 0) = (Block, mkMutex 5 0, []) /\
  step false LSema (mkMutex 2 1) = (Goto (LLoad true 0), mkMutex 2 0, [EvSemacquire]).
Proof.
  destruct (lock_slow_cas false (mkMutex 1 0) false 0 1 5 eq_refl) as (H1 & _ & H3).
  split; [reflexivity |]. split; [exact H1 |].
  split; [exact (H3 (mkMutex 5 0)) | exact (H3 (mkMutex 2 1))].
Defined.

Lemma woken_set_needs_waiter_witness :
  fatal (fst (sys_step 0 false (fst (exec before_wake two_units)))) = None /\
  woken (state (mu (fst (exec before_wake two_units)))) = false /\
  woken (state (mu (fst (sys_step 0 false (fst (exec before_wake two_units)))))) = true /\
  state (mu (fst (exec before_wake two_units))) = 4 /\
  waiters (state (mu (fst (exec before_wake two_units)))) <> 0.
Proof.
  split; [reflexivity |]. split; [reflexivity |]. split; [reflexivity |].
  split; [reflexivity |].
  exact (proj1 (woken_set_needs_waiter [[Lock; Unlock]; [Lock]] before_wake 0 false
                  eq_refl eq_refl eq_refl)).
Defined.

Lemma lock_awoke_check_witness :
  locked (state (mkMutex 2 0)) = false /\
  step false (LLoad true 0) (mkMutex 2 0) =
    (Goto (LCheck true 0 2 (Z.lor 2 mutexLocked)), mkMutex 2 0, [EvLoad 2]) /\
  step false (LCheck true 0 2 3) (mkMutex 2 0) =
    (Goto (LCAS true 0 2 1), mkMutex 2 0, []) /\
  step false (LCheck true 0 0 1) (mkMutex 0 0) =
    (Panic inconsistent_msg, mkMutex 0 0, [EvPanic inconsistent_msg]).
Proof.
  destruct (lock_awoke_check false (mkMutex 2 0) 0 2 3) as (H1 & _ & H3 & _).
  destruct (lock_awoke_check false (mkMutex 0 0) 0 0 1) as (H4 & _).
  split; [reflexivity |]. split; [exact (H3 true eq_refl) |].
  split; [exact H1 | exact H4].
Defined.

Lemma lock_unlock_uncontended_witness :
  (5 * 2 <= length (repeat true 10))%nat /\
  length (repeat false 5) = 5%nat /\
  fst (exec (alone (repeat true 10)) (boot [rounds 2])) =
    mkSys zeroMutex [mkG [] None] None /\
  state (mu (fst (exec (alone (repeat false 5)) (boot [[Lock; Unlock]])))) = 0.
Proof.
  destruct (lock_unlock_uncontended 2 (repeat true 10)) as (_ & _ & _ & _ & _ & H).
  destruct (lock_unlock_uncontended 1 (repeat false 5)) as (_ & H5 & _).
  split; [simpl; lia |]. split; [reflexivity |].
  split; [apply H; simpl; lia |].
  rewrite (H5 eq_refl). reflexivity.
Defined.

Lemma lock_spin_path_witness :
  locked (state (mkMutex 5 0)) = true /\
  step true (LLoad false 0) (mkMutex 5 0) =
    (Goto (LCanSpin false 0 5), mkMutex 5 0, [EvLoad 5]) /\
  step true (LCanSpin false 0 5) (mkMutex 5 0) =
    (Goto (LSpinCAS false 0 5), mkMutex 5 0, [EvCanSpin 0 true]) /\
  step true (LSpinCAS false 0 5) (mkMutex 5 0) =
    (Goto (LDoSpin true 0), mkMutex 7 0, [EvCAS 5 7 true]) /\
  step true (LDoSpin true 0) (mkMutex 7 0) =
    (Goto (LLoad true 1), mkMutex 7 0, [EvDoSpin]).
Proof.
  destruct (lock_spin_path true (mkMutex 5 0) false 0 5) as (H1 & H2 & H3 & _).
  destruct (lock_spin_path true (mkMutex 7 0) true 0 7) as (_ & _ & _ & _ & _ & H6 & _).
  split; [reflexivity |]. split; [exact (H1 eq_refl) |].
  split; [exact H2 |]. split; [exact H3 | exact H6].
Defined.

Lemma unlock_fatal_keeps_decrement_witness :
  fatal (mkSys zeroMutex [mkG [] (Some UAdd)] None) = None /\
  locked (state zeroMutex) = false /\
  exists s',
    sys_step 0 true (mkSys zeroMutex [mkG [] (Some UAdd)] None) =
      (s', [EvAdd (- mutexLocked) (state (mu s')); EvPanic unlocked_msg])
    /\ fatal s' = Some unlocked_msg
    /\ state (mu s') = Int32.sub 0 mutexLocked
    /\ state (mu s') <> 0
    /\ forall sched, fst (exec sched s') = s'.
Proof.
  split; [reflexivity |]. split; [reflexivity |].
  exact (unlock_fatal_keeps_decrement true 0
           (mkSys zeroMutex [mkG [] (Some UAdd)] None) (mkG [] (Some UAdd))
           eq_refl eq_refl eq_refl eq_refl).
Defined.

(** * Beyond single transitions *)

(** ** More on the state word *)

Module WordMore.

Lemma lor_woken_set (s : Z) : woken (Z.lor s mutexWoken) = true.
Proof. apply Word.woken_mod. arith_lia. Qed.

Lemma woken_clear (s : Z) : woken s = false <-> s mod 4 < 2.
Proof.
  split.
  - intros H. destruct (Z_lt_ge_dec (s mod 4) 2) as [Hlt | Hge]; [exact Hlt |].
    assert (woken s = true) by (apply Word.woken_mod; lia). congruence.
  - intros H. destruct (woken s) eqn:E; [| reflexivity].
    apply Word.woken_mod in E. lia.
Qed.

Lemma same_low_woken (s t : Z) : s mod 4 / 2 = t mod 4 / 2 -> woken s = woken t.
Proof.
  intros H. destruct (woken t) eqn:E.
  - apply Word.woken_mod. apply Word.woken_mod in E.
    Z.div_mod_to_equations; lia.
  - apply woken_clear. apply woken_clear in E. Z.div_mod_to_equations; lia.
Qed.

Lemma lor_locked_woken (s : Z) : woken (Z.lor s mutexLocked) = woken s.
Proof. apply same_low_woken. arith_lia. Qed.

Lemma add_waiter_woken (s : Z) :
  woken (Int32.add s (Z.shiftl 1 mutexWaiterShift)) = woken s.
Proof. apply same_low_woken. arith_lia. Qed.

Lemma candidate_woken (s : Z) : woken (candidate s) = woken s.
Proof.
  unfold candidate. destruct (locked s);
    [apply add_waiter_woken | apply lor_locked_woken].
Qed.

Lemma sub_locked_woken (s : Z) :
  locked s = true -> woken (Int32.sub s mutexLocked) = woken s.
Proof.
  intros H. apply Word.locked_odd in H. apply same_low_woken. arith_lia.
Qed.

Lemma candidate_is_locked (s : Z) : locked (candidate s) = true.
Proof.
  apply Word.locked_odd. unfold candidate. destruct (locked s) eqn:E.
  - apply Word.locked_odd in E. arith_lia.
  - arith_lia.
Qed.

Lemma ldiff_woken_locked (s : Z) : locked (Z.ldiff s mutexWoken) = locked s.
Proof.
  destruct (locked s) eqn:E.
  - apply Word.locked_odd. apply Word.locked_odd in E. arith_lia.
  - apply Word.locked_even. apply Word.locked_even in E. arith_lia.
Qed.

End WordMore.

(** ** Wake-ups in flight *)

Lemma step_tokens (b : bool) (f : frame) (m m' : Mutex) (o : outcome)
    (evs : list event) :
  frame_ok f -> frame_fresh f ->
  (awoke_of f = true -> woken (state m) = true) ->
  0 <= sema m <= 1 ->
  step b f m = (o, m', evs) ->
  match o with
  | Goto f' =>
      frame_fresh f' /\ 0 <= sema m' /\
      tok f' + sema m' + b2z (woken (state m))
      = tok f + sema m + b2z (woken (state m'))
  | Return =>
      0 <= sema m' /\
      sema m' + b2z (woken (state m))
      = tok f + sema m + b2z (woken (state m'))
  | Panic msg => msg = unlocked_msg
  | Block => True
  end.
Proof.
  intros Hok Hfresh Haw Hsema Hstep. destruct f.
  all: try rewrite unlock_add in Hstep; cbv zeta in Hstep.
  all: simpl in Hstep;
    unfold CompareAndSwapInt32, runtime_Semacquire, runtime_Semrelease,
      Uint32.wrap in Hstep;
    branches; inversion Hstep; subst; clear Hstep; unfold tok; simpl in *.
  all: repeat match goal with
       | H : (_ =? _) = true |- _ => apply Z.eqb_eq in H
       | H : (_ <? _) = true |- _ => apply Z.ltb_lt in H
       | H : _ /\ _ |- _ => destruct H
       end; subst.
  all: try match goal with
       | H : Z.land ?n mutexWoken = 0, F : woken ?n = true |- _ =>
           exfalso; unfold woken in F; rewrite H in F; discriminate
       end.
  all: try match goal with H : state _ = 0 |- _ => rewrite H in * end.
  all: try match goal with a : bool |- _ => destruct a end; simpl in *.
  all: try match goal with
       | H : true = true -> _ |- _ => specialize (H eq_refl)
       end.
  all: change (2 ^ 32) with 4294967296 in *.
  all: rewrite ?Z.mod_small by lia.
  all: rewrite ?WordMore.candidate_woken, ?WordMore.lor_locked_woken,
         ?WordMore.add_waiter_woken, ?WordMore.lor_woken_set,
         ?Word.ldiff_woken in *.
  all: try match goal with
       | H : locked ?s = true |- context [Int32.sub ?s mutexLocked] =>
           rewrite (WordMore.sub_locked_woken s H)
       end.
  all: repeat match goal with
       | H : woken ?s = _ |- context [woken ?s] => rewrite H
       end.
  all: simpl; repeat split; auto; try lia.
Qed.

(** *** Tallies over the goroutines *)

Lemma tally_insert (p : goroutine -> bool) (l : list goroutine) (i : nat)
    (g g' : goroutine) :
  l !! i = Some g ->
  tally p (<[i:=g']> l) = tally p l - b2z (p g) + b2z (p g').
Proof.
  revert i. induction l as [| x l IH]; intros i Hl; [discriminate |].
  destruct i as [| i]; simpl in *.
  - inversion Hl; subst. lia.
  - rewrite (IH i Hl). lia.
Qed.

Lemma tally_nonneg (p : goroutine -> bool) (l : list goroutine) : 0 <= tally p l.
Proof.
  induction l as [| x l IH]; simpl; [lia |]. destruct (p x); simpl; lia.
Qed.

Lemma tally_lookup (p : goroutine -> bool) (l : list goroutine) (i : nat)
    (g : goroutine) :
  l !! i = Some g -> p g = true -> 1 <= tally p l.
Proof.
  revert i. induction l as [| x l IH]; intros i Hl Hp; [discriminate |].
  destruct i as [| i]; simpl in *.
  - inversion Hl; subst. rewrite Hp. pose proof (tally_nonneg p l). simpl. lia.
  - specialize (IH i Hl Hp). destruct (p x); simpl; lia.
Qed.

Lemma tally_length (p : goroutine -> bool) (l : list goroutine) :
  tally p l <= Z.of_nat (length l).
Proof.
  induction l as [| x l IH]; simpl length; simpl tally; [lia |].
  destruct (p x); simpl; lia.
Qed.

Lemma tally_below_length (p : goroutine -> bool) (l : list goroutine) (i : nat)
    (g : goroutine) :
  l !! i = Some g -> p g = false -> tally p l < Z.of_nat (length l).
Proof.
  revert i. induction l as [| x l IH]; intros i Hl Hp; [discriminate |].
  destruct i as [| i]; simpl length; simpl tally; simpl in Hl.
  - inversion Hl; subst. rewrite Hp. pose proof (tally_length p l). simpl. lia.
  - specialize (IH i Hl Hp). destruct (p x); simpl; lia.
Qed.

Lemma tally_positive (p : goroutine -> bool) (l : list goroutine) :
  0 < tally p l -> exists i g, l !! i = Some g /\ p g = true.
Proof.
  induction l as [| x l IH]; simpl; [lia |]. intros H.
  destruct (p x) eqn:E.
  - exists 0%nat, x. split; [reflexivity | exact E].
  - destruct (IH ltac:(simpl in H; lia)) as (i & g & Hl & Hp).
    exists (S i), g. split; assumption.
Qed.

Lemma tally_none (p : goroutine -> bool) (l : list goroutine) :
  (forall i g, l !! i = Some g -> p g = false) -> tally p l = 0.
Proof.
  induction l as [| x l IH]; intros H; simpl; [reflexivity |].
  rewrite (H 0%nat x eq_refl). rewrite IH; [reflexivity |].
  intros i g Hl. exact (H (S i) g Hl).
Qed.

(** *** The woken bit counts the wake-ups in flight *)

Lemma token_awoke (s : system) (i : nat) (g : goroutine) (f : frame) :
  token_inv s -> gs s !! i = Some g -> pc g = Some f ->
  0 <= sema (mu s) <= 1 /\ (awoke_of f = true -> woken (state (mu s)) = true).
Proof.
  intros (_ & Hs & Hw) Hg Hpc. unfold wakeups in Hw.
  pose proof (tally_nonneg (standing awoke_of) (gs s)) as Ha.
  pose proof (tally_nonneg (standing at_usema) (gs s)) as Hu.
  split.
  - destruct (woken (state (mu s))); simpl in Hw; lia.
  - intros Haw.
    assert (Hst : standing awoke_of g = true) by (unfold standing; rewrite Hpc; exact Haw).
    pose proof (tally_lookup _ _ _ _ Hg Hst).
    destruct (woken (state (mu s))); [reflexivity | simpl in Hw; lia].
Qed.

Lemma sys_step_tokens (i : nat) (b : bool) (s : system) :
  sys_ok s -> tokens_ok s -> tokens_ok (fst (sys_step i b s)).
Proof.
  intros Hok [[Hf Hinv] | Hf]; unfold sys_step; rewrite Hf;
    [| right; exact Hf].
  destruct (gs s !! i) as [g |] eqn:Hg; [| left; split; assumption].
  pose proof (proj1 (Forall_lookup _ _) Hok i g Hg) as Hgok.
  unfold goroutine_ok in Hgok.
  destruct Hinv as (Hfresh & Hs & Hw).
  pose proof (proj1 (Forall_lookup _ _) Hfresh i g Hg) as Hgf.
  unfold goroutine_fresh in Hgf.
  destruct (pc g) as [f |] eqn:Hpc.
  - destruct (token_awoke s i g f (conj Hfresh (conj Hs Hw)) Hg Hpc) as [Hs1 Haw].
    destruct (step b f (mu s)) as [[o m'] evs] eqn:Hstep.
    pose proof (step_tokens b f (mu s) m' o evs Hgok Hgf Haw Hs1 Hstep) as Ht.
    assert (Hsa : standing awoke_of g = awoke_of f) by (unfold standing; rewrite Hpc; reflexivity).
    assert (Hsu : standing at_usema g = at_usema f) by (unfold standing; rewrite Hpc; reflexivity).
    unfold tok in Ht. unfold wakeups in Hw.
    destruct o; simpl.
    + destruct Ht as (Hf' & Hs' & Hbal). left. split; [reflexivity |].
      split; [apply Forall_insert; assumption |]. split; [exact Hs' |].
      unfold wakeups. simpl.
      rewrite !(tally_insert _ _ _ _ _ Hg), Hsa, Hsu.
      unfold standing at 2 4. simpl. lia.
    + destruct Ht as (Hs' & Hbal). left. split; [reflexivity |].
      split; [apply Forall_insert; [assumption | exact I] |]. split; [exact Hs' |].
      unfold wakeups. simpl.
      rewrite !(tally_insert _ _ _ _ _ Hg), Hsa, Hsu.
      unfold standing at 2 4. simpl. lia.
    + right. rewrite Ht. reflexivity.
    + left. split; [exact Hf |]. repeat split; assumption.
  - destruct (pending g) as [| c rest]; [left; split; [exact Hf |]; repeat split; assumption |].
    left. split; [reflexivity |]. simpl.
    split; [apply Forall_insert; [assumption | destruct c; exact I] |].
    split; [exact Hs |].
    assert (Hsa : forall p, standing p g = false)
      by (intros p; unfold standing; rewrite Hpc; reflexivity).
    assert (Hsa' : standing awoke_of (mkG rest (Some (entry c))) = false)
      by (destruct c; reflexivity).
    assert (Hsu' : standing at_usema (mkG rest (Some (entry c))) = false)
      by (destruct c; reflexivity).
    unfold wakeups in *. simpl.
    rewrite !(tally_insert _ _ _ _ _ Hg), !Hsa, Hsa', Hsu'. simpl. lia.
Qed.

Lemma exec_tokens (sched : list (nat * bool)) (s : system) :
  sys_ok s -> tokens_ok s -> tokens_ok (fst (exec sched s)).
Proof.
  revert s. induction sched as [| [i b] sched IH]; intros s Hok Hinv; simpl.
  - exact Hinv.
  - pose proof (sys_step_ok i b s Hok) as Hok1.
    pose proof (sys_step_tokens i b s Hok Hinv) as Hinv1.
    destruct (sys_step i b s) as [s1 e1]. simpl in Hok1, Hinv1.
    specialize (IH s1 Hok1 Hinv1). destruct (exec sched s1) as [s2 e2]. exact IH.
Qed.

Lemma tally_boot (p : frame -> bool) (progs : list (list call)) :
  tally (standing p) (gs (boot progs)) = 0.
Proof.
  unfold boot. simpl. induction progs as [| x progs IH]; simpl; [reflexivity |].
  rewrite IH. reflexivity.
Qed.

Lemma boot_tokens (progs : list (list call)) : tokens_ok (boot progs).
Proof.
  left. split; [reflexivity |]. split; [| split].
  - unfold boot. simpl. induction progs as [| x progs IH]; simpl;
      constructor; [exact I | exact IH].
  - simpl. lia.
  - unfold wakeups. rewrite !tally_boot. reflexivity.
Qed.

(** *** Parked callers are accounted for *)

Lemma step_waiters (b : bool) (f : frame) (m m' : Mutex) (o : outcome)
    (evs : list event) :
  frame_ok f ->
  0 <= state m < 2147483648 ->
  (at_lsema f = false -> state m + 4 < 2147483648) ->
  0 <= sema m < 2147483648 ->
  step b f m = (o, m', evs) ->
  match o with
  | Goto f' =>
      0 <= state m' /\ 0 <= sema m' /\
      waiters (state m') + sema m' + b2z (at_usema f') - b2z (at_lsema f')
      = waiters (state m) + sema m + b2z (at_usema f) - b2z (at_lsema f)
  | Return =>
      0 <= state m' /\ 0 <= sema m' /\
      waiters (state m') + sema m'
      = waiters (state m) + sema m + b2z (at_usema f) - b2z (at_lsema f)
  | Panic _ | Block => True
  end.
Proof.
  intros Hok Hst Hroom Hsema Hstep. destruct f.
  all: try rewrite unlock_add in Hstep; cbv zeta in Hstep.
  all: simpl in Hstep;
    unfold CompareAndSwapInt32, runtime_Semacquire, runtime_Semrelease,
      Uint32.wrap in Hstep;
    branches; inversion Hstep; subst; clear Hstep; simpl in *; try exact I.
  all: try specialize (Hroom eq_refl).
  all: repeat match goal with
       | H : (_ =? _) = true |- _ => apply Z.eqb_eq in H
       | H : (_ <? _) = true |- _ => apply Z.ltb_lt in H
       | H : _ /\ _ |- _ => destruct H
       end; subst.
  all: try match goal with H : state _ = 0 |- _ => rewrite H in * end.
  all: change (2 ^ 32) with 4294967296 in *.
  all: rewrite ?Z.mod_small by lia.
  all: try (repeat split; lia).
  all: unfold candidate in *.
  all: try match goal with
       | H : ?a = true -> _ |- _ =>
           destruct a; [specialize (H eq_refl) | clear H]
       end.
  all: branches; arith; repeat split; Z.div_mod_to_equations; lia.
Qed.

Lemma waiter_bounds (s : system) (i : nat) (g : goroutine) (f : frame) :
  waiter_inv s -> Z.of_nat (length (gs s)) < 536870912 ->
  gs s !! i = Some g -> pc g = Some f ->
  0 <= state (mu s) < 2147483648 /\
  (at_lsema f = false -> state (mu s) + 4 < 2147483648) /\
  0 <= sema (mu s) < 2147483648.
Proof.
  intros (Hst & Hs & Hw) Hn Hg Hpc.
  pose proof (tally_nonneg (standing at_usema) (gs s)) as Hu.
  pose proof (tally_length (standing at_lsema) (gs s)) as Hl.
  unfold waiters in Hw. change mutexWaiterShift with 2 in Hw.
  rewrite Bits.shiftr_2 in Hw.
  split; [| split].
  - Z.div_mod_to_equations; lia.
  - intros Hnl.
    assert (Hsl : standing at_lsema g = false) by (unfold standing; rewrite Hpc; exact Hnl).
    pose proof (tally_below_length _ _ _ _ Hg Hsl).
    Z.div_mod_to_equations; lia.
  - Z.div_mod_to_equations; lia.
Qed.

Lemma sys_step_waiters (i : nat) (b : bool) (s : system) :
  sys_ok s -> Z.of_nat (length (gs s)) < 536870912 ->
  (fatal s = None -> waiter_inv s) ->
  (fatal (fst (sys_step i b s)) = None -> waiter_inv (fst (sys_step i b s))) /\
  length (gs (fst (sys_step i b s))) = length (gs s).
Proof.
  intros Hok Hn Hinv. unfold sys_step.
  destruct (fatal s) eqn:Hf;
    [simpl; rewrite Hf; split; [discriminate | reflexivity] |].
  specialize (Hinv eq_refl).
  destruct (gs s !! i) as [g |] eqn:Hg; [| split; [intros _; exact Hinv | reflexivity]].
  pose proof (proj1 (Forall_lookup _ _) Hok i g Hg) as Hgok.
  unfold goroutine_ok in Hgok.
  destruct (pc g) as [f |] eqn:Hpc.
  - destruct (waiter_bounds s i g f Hinv Hn Hg Hpc) as (Hb1 & Hb2 & Hb3).
    destruct (step b f (mu s)) as [[o m'] evs] eqn:Hstep.
    pose proof (step_waiters b f (mu s) m' o evs Hgok Hb1 Hb2 Hb3 Hstep) as Ht.
    assert (Hsl : standing at_lsema g = at_lsema f) by (unfold standing; rewrite Hpc; reflexivity).
    assert (Hsu : standing at_usema g = at_usema f) by (unfold standing; rewrite Hpc; reflexivity).
    destruct Hinv as (Hst & Hs & Hw).
    destruct o; simpl.
    + split; [| apply length_insert]. intros _.
      destruct Ht as (Hst' & Hs' & Hbal). unfold waiter_inv. simpl.
      rewrite !(tally_insert _ _ _ _ _ Hg), Hsl, Hsu.
      unfold standing at 2 4. simpl. repeat split; lia.
    + split; [| apply length_insert]. intros _.
      destruct Ht as (Hst' & Hs' & Hbal). unfold waiter_inv. simpl.
      rewrite !(tally_insert _ _ _ _ _ Hg), Hsl, Hsu.
      unfold standing at 2 4. simpl. repeat split; lia.
    + split; [discriminate | reflexivity].
    + split; [intros _; repeat split; assumption | reflexivity].
  - destruct (pending g) as [| c rest].
    + split; [intros _; exact Hinv | reflexivity].
    + simpl. split; [| apply length_insert]. intros _.
      destruct Hinv as (Hst & Hs & Hw). unfold waiter_inv. simpl.
      assert (Hsa : forall p, standing p g = false)
        by (intros p; unfold standing; rewrite Hpc; reflexivity).
      assert (Hsl' : standing at_lsema (mkG rest (Some (entry c))) = false)
        by (destruct c; reflexivity).
      assert (Hsu' : standing at_usema (mkG rest (Some (entry c))) = false)
        by (destruct c; reflexivity).
      rewrite !(tally_insert _ _ _ _ _ Hg), !Hsa, Hsl', Hsu'. simpl.
      repeat split; lia.
Qed.

Lemma exec_waiters (sched : list (nat * bool)) (s : system) :
  sys_ok s -> Z.of_nat (length (gs s)) < 536870912 ->
  (fatal s = None -> waiter_inv s) ->
  (fatal (fst (exec sched s)) = None -> waiter_inv (fst (exec sched s))) /\
  length (gs (fst (exec sched s))) = length (gs s).
Proof.
  revert s. induction sched as [| [i b] sched IH]; intros s Hok Hn Hinv; simpl.
  - split; [exact Hinv | reflexivity].
  - pose proof (sys_step_ok i b s Hok) as Hok1.
    destruct (sys_step_waiters i b s Hok Hn Hinv) as [Hinv1 Hlen1].
    destruct (sys_step i b s) as [s1 e1]. simpl in Hok1, Hinv1, Hlen1.
    rewrite <- Hlen1 in Hn.
    destruct (IH s1 Hok1 Hn Hinv1) as [H2 Hlen2].
    destruct (exec sched s1) as [s2 e2]. simpl in *.
    split; [exact H2 | lia].
Qed.

Lemma boot_waiters (progs : list (list call)) : waiter_inv (boot progs).
Proof.
  unfold waiter_inv. rewrite !tally_boot. simpl. repeat split; lia.
Qed.

(** *** A word that needs a wake-up has an Unlock about to give it *)

Lemma unlock_check_needs (old : Z) :
  (Z.shiftr old mutexWaiterShift =? 0)
  || negb (Z.land old (Z.lor mutexLocked mutexWoken) =? 0)
  = negb (needs_wake old).
Proof.
  rewrite unlock_check_test. unfold needs_wake.
  destruct (waiters old =? 0), (woken old), (locked old); reflexivity.
Qed.

Lemma needs_wake_locked (s : Z) : locked s = true -> needs_wake s = false.
Proof. intros H. unfold needs_wake. rewrite H. reflexivity. Qed.

Lemma needs_wake_woken (s : Z) : woken s = true -> needs_wake s = false.
Proof. intros H. unfold needs_wake. rewrite H. destruct (locked s); reflexivity. Qed.

Lemma step_waker (b : bool) (f : frame) (m m' : Mutex) (o : outcome)
    (evs : list event) :
  frame_ok f -> step b f m = (o, m', evs) ->
  match o with
  | Panic _ | Block => True
  | _ =>
      needs_wake (state m') = false \/
      after o (waking (state m')) = true \/
      (state m' = state m /\ waking (state m) f = false)
  end.
Proof.
  intros Hok Hstep. destruct f.
  all: try rewrite unlock_add in Hstep; cbv zeta in Hstep.
  all: simpl in Hstep; try rewrite unlock_check_needs in Hstep;
    unfold CompareAndSwapInt32, runtime_Semacquire, runtime_Semrelease in Hstep;
    branches; inversion Hstep; subst; clear Hstep; simpl in *; try exact I.
  all: try (right; right; split; reflexivity).
  all: try (right; left; apply Z.eqb_refl).
  - left. reflexivity.
  - left. apply needs_wake_woken. apply WordMore.lor_woken_set.
  - left. apply needs_wake_locked. destruct Hok as [-> _].
    destruct awoke; rewrite ?WordMore.ldiff_woken_locked;
      apply WordMore.candidate_is_locked.
  - left. apply needs_wake_locked. destruct Hok as [-> _].
    destruct awoke; rewrite ?WordMore.ldiff_woken_locked;
      apply WordMore.candidate_is_locked.
  - destruct (old =? state m') eqn:E; [| right; right; split; reflexivity].
    apply Z.eqb_eq in E. subst old. left.
    match goal with H : negb _ = true |- _ => apply negb_true_iff in H; exact H end.
  - destruct (old =? state m') eqn:E; [right; left; reflexivity |].
    right; right; split; reflexivity.
  - left. apply needs_wake_woken. destruct Hok as [-> _].
    apply WordMore.lor_woken_set.
  - right; right. split; [reflexivity |]. rewrite Z.eqb_sym. assumption.
Qed.

Lemma tally_member (p : goroutine -> bool) (l : list goroutine) (i : nat)
    (g : goroutine) :
  l !! i = Some g -> b2z (p g) <= tally p l.
Proof.
  intros Hl. destruct (p g) eqn:E; simpl.
  - exact (tally_lookup p l i g Hl E).
  - apply tally_nonneg.
Qed.

Lemma sys_step_waker (i : nat) (b : bool) (s : system) :
  sys_ok s -> (fatal s = None -> waker_inv s) ->
  fatal (fst (sys_step i b s)) = None -> waker_inv (fst (sys_step i b s)).
Proof.
  intros Hok Hinv. unfold sys_step.
  destruct (fatal s) eqn:Hf; [simpl; rewrite Hf; discriminate |].
  specialize (Hinv eq_refl).
  destruct (gs s !! i) as [g |] eqn:Hg; [| intros _; exact Hinv].
  pose proof (proj1 (Forall_lookup _ _) Hok i g Hg) as Hgok.
  unfold goroutine_ok in Hgok.
  destruct (pc g) as [f |] eqn:Hpc.
  - destruct (step b f (mu s)) as [[o m'] evs] eqn:Hstep.
    pose proof (step_waker b f (mu s) m' o evs Hgok Hstep) as Ht.
    destruct o; simpl; try discriminate; try (intros _; exact Hinv).
    + intros _. unfold waker_inv. simpl. intros Hneed.
      rewrite (tally_insert _ _ _ _ _ Hg).
      pose proof (tally_member (standing (waking (state m'))) _ _ _ Hg) as Hm.
      destruct Ht as [Ht | [Ht | [Hsame Hnot]]].
      * congruence.
      * simpl in Ht. unfold standing at 3. simpl. rewrite Ht. simpl. lia.
      * rewrite Hsame in *. specialize (Hinv Hneed).
        assert (Hsg : standing (waking (state (mu s))) g = false)
          by (unfold standing; rewrite Hpc; exact Hnot).
        rewrite Hsg. simpl.
        destruct (standing (waking (state (mu s))) (mkG (pending g) (Some f0)));
          simpl; lia.
    + intros _. unfold waker_inv. simpl. intros Hneed.
      rewrite (tally_insert _ _ _ _ _ Hg).
      destruct Ht as [Ht | [Ht | [Hsame Hnot]]].
      * congruence.
      * discriminate.
      * rewrite Hsame in *. specialize (Hinv Hneed).
        assert (Hsg : standing (waking (state (mu s))) g = false)
          by (unfold standing; rewrite Hpc; exact Hnot).
        rewrite Hsg. unfold standing at 2. simpl. lia.
  - destruct (pending g) as [| c rest]; [intros _; exact Hinv |].
    intros _. unfold waker_inv. simpl. intros Hneed. specialize (Hinv Hneed).
    rewrite (tally_insert _ _ _ _ _ Hg).
    assert (Hsg : standing (waking (state (mu s))) g = false)
      by (unfold standing; rewrite Hpc; reflexivity).
    assert (Hsg' : standing (waking (state (mu s))) (mkG rest (Some (entry c))) = false)
      by (destruct c; reflexivity).
    rewrite Hsg, Hsg'. simpl. lia.
Qed.

Lemma exec_waker (sched : list (nat * bool)) (s : system) :
  sys_ok s -> (fatal s = None -> waker_inv s) ->
  fatal (fst (exec sched s)) = None -> waker_inv (fst (exec sched s)).
Proof.
  revert s. induction sched as [| [i b] sched IH]; intros s Hok Hinv; simpl.
  - exact Hinv.
  - pose proof (sys_step_ok i b s Hok) as Hok1.
    pose proof (sys_step_waker i b s Hok Hinv) as Hinv1.
    destruct (sys_step i b s) as [s1 e1]. simpl in Hok1, Hinv1.
    specialize (IH s1 Hok1 Hinv1). destruct (exec sched s1) as [s2 e2]. exact IH.
Qed.

Lemma boot_waker (progs : list (list call)) : waker_inv (boot progs).
Proof. intros H. discriminate. Qed.

(** ** Callers that pair Lock with Unlock never panic and never get stuck *)

Lemma step_panic_cases (b : bool) (f : frame) (m m' : Mutex) (msg : string)
    (evs : list event) :
  step b f m = (Panic msg, m', evs) ->
  (f = UAdd /\ locked (state m) = false) \/
  (exists it o n, f = LCheck true it o n /\ woken n = false).
Proof.
  intros Hstep. destruct f.
  all: try rewrite unlock_add in Hstep; cbv zeta in Hstep.
  all: simpl in Hstep;
    unfold CompareAndSwapInt32, runtime_Semacquire, runtime_Semrelease in Hstep;
    branches; inversion Hstep; subst; clear Hstep.
  all: first
    [ left; split; [reflexivity | first [assumption | reflexivity]]
    | right; eexists _, _, _; split; [reflexivity |]; unfold woken;
      match goal with H : (Z.land _ _ =? 0) = true |- _ => rewrite H end;
      reflexivity ].
Qed.

Lemma step_moves (b : bool) (f f' : frame) (m m' : Mutex) (evs : list event) :
  step b f m = (Goto f', m', evs) -> f' <> f.
Proof.
  intros Hstep. destruct f.
  all: try rewrite unlock_add in Hstep; cbv zeta in Hstep.
  all: simpl in Hstep;
    unfold CompareAndSwapInt32, runtime_Semacquire, runtime_Semrelease in Hstep;
    branches; inversion Hstep; subst; clear Hstep; discriminate.
Qed.

Lemma step_runnable (b : bool) (g : goroutine) (f : frame) (m : Mutex) :
  pc g = Some f -> runnable m g = true -> fst (fst (step b f m)) <> Block.
Proof.
  intros Hpc Hr. unfold runnable in Hr. rewrite Hpc in Hr. destruct f.
  all: try rewrite unlock_add; cbv zeta.
  all: simpl;
    unfold CompareAndSwapInt32, runtime_Semacquire, runtime_Semrelease;
    try rewrite Hr; branches; simpl; discriminate.
Qed.

Lemma insert_changes (l : list goroutine) (i : nat) (g g' : goroutine) :
  l !! i = Some g -> g' <> g -> <[i:=g']> l <> l.
Proof.
  intros Hl Hne Heq. apply Hne.
  assert (H : <[i:=g']> l !! i = Some g').
  { apply list_lookup_insert_eq. exact (lookup_lt_Some _ _ _ Hl). }
  rewrite Heq, Hl in H. inversion H. reflexivity.
Qed.

Lemma runnable_moves (s : system) (i : nat) (g : goroutine) (b : bool) :
  fatal s = None -> gs s !! i = Some g -> runnable (mu s) g = true ->
  fst (sys_step i b s) <> s.
Proof.
  intros Hf Hg Hr. unfold sys_step. rewrite Hf, Hg.
  destruct (pc g) as [f |] eqn:Hpc.
  - pose proof (step_runnable b g f (mu s) Hpc Hr) as Hnb.
    destruct (step b f (mu s)) as [[o m'] evs] eqn:Hstep.
    destruct o; simpl in *.
    + intros Heq. apply (f_equal gs) in Heq. simpl in Heq. revert Heq.
      apply (insert_changes _ _ g); [exact Hg |].
      intros Hgg. apply (f_equal pc) in Hgg. simpl in Hgg. rewrite Hpc in Hgg.
      injection Hgg as Hff. exact (step_moves _ _ _ _ _ _ Hstep Hff).
    + intros Heq. apply (f_equal gs) in Heq. simpl in Heq. revert Heq.
      apply (insert_changes _ _ g); [exact Hg |].
      intros Hgg. apply (f_equal pc) in Hgg. simpl in Hgg. rewrite Hpc in Hgg.
      discriminate.
    + intros Heq. apply (f_equal fatal) in Heq. simpl in Heq. congruence.
    + congruence.
  - unfold runnable in Hr. rewrite Hpc in Hr.
    destruct (pending g) as [| c rest]; [discriminate |]. simpl.
    intros Heq. apply (f_equal gs) in Heq. simpl in Heq. revert Heq.
    apply (insert_changes _ _ g); [exact Hg |].
    intros Hgg. apply (f_equal pc) in Hgg. simpl in Hgg. rewrite Hpc in Hgg.
    discriminate.
Qed.

Lemma sys_step_paired_safe (i : nat) (b : bool) (s : system) :
  sys_ok s -> paired_inv s -> tokens_ok s -> fatal s = None ->
  fatal (fst (sys_step i b s)) = None.
Proof.
  intros Hok [Hall Hcount] Htok Hf. unfold sys_step. rewrite Hf.
  destruct (gs s !! i) as [g |] eqn:Hg; [| exact Hf].
  destruct (pc g) as [f |] eqn:Hpc.
  - destruct (step b f (mu s)) as [[o m'] evs] eqn:Hstep.
    destruct o; simpl; try reflexivity; try exact Hf.
    exfalso. destruct (step_panic_cases _ _ _ _ _ _ Hstep) as [[-> Hl] | (it & o & n & -> & Hw)].
    + assert (Hhold : holding g = true) by (unfold holding; rewrite Hpc; reflexivity).
      pose proof (holders_lookup _ _ _ Hg Hhold) as Hge.
      rewrite Hcount, Hl in Hge. simpl in Hge. lia.
    + destruct Htok as [[_ (Hfresh & _)] | Hdead]; [| congruence].
      pose proof (proj1 (Forall_lookup _ _) Hfresh i g Hg) as Hgf.
      unfold goroutine_fresh in Hgf. rewrite Hpc in Hgf. simpl in Hgf. congruence.
  - destruct (pending g); [exact Hf | reflexivity].
Qed.

Lemma exec_paired_safe (sched : list (nat * bool)) (s : system) :
  sys_ok s -> paired_inv s -> tokens_ok s -> fatal s = None ->
  fatal (fst (exec sched s)) = None.
Proof.
  revert s. induction sched as [| [i b] sched IH]; intros s Hok Hp Ht Hf; simpl.
  - exact Hf.
  - pose proof (sys_step_ok i b s Hok) as Hok1.
    pose proof (sys_step_paired i b s Hok Hp) as Hp1.
    pose proof (sys_step_tokens i b s Hok Ht) as Ht1.
    pose proof (sys_step_paired_safe i b s Hok Hp Ht Hf) as Hf1.
    destruct (sys_step i b s) as [s1 e1]. simpl in *.
    specialize (IH s1 Hok1 Hp1 Ht1 Hf1). destruct (exec sched s1) as [s2 e2].
    exact IH.
Qed.

Lemma tally_zero (p : goroutine -> bool) (l : list goroutine) (i : nat)
    (g : goroutine) :
  tally p l <= 0 -> l !! i = Some g -> p g = false.
Proof.
  intros Hz Hl. destruct (p g) eqn:E; [| reflexivity].
  pose proof (tally_lookup p l i g Hl E). lia.
Qed.

Lemma holders_none (l : list goroutine) :
  (forall i g, l !! i = Some g -> holding g = false) -> holders l = 0%nat.
Proof.
  induction l as [| x l IH]; intros H; simpl; [reflexivity |].
  rewrite (H 0%nat x eq_refl). rewrite IH; [reflexivity |].
  intros i g Hl. exact (H (S i) g Hl).
Qed.

Lemma not_runnable (m : Mutex) (g : goroutine) :
  runnable m g = false ->
  (finished g = true \/ (pc g = Some LSema /\ sema m <= 0)) /\
  standing at_usema g = false /\ standing awoke_of g = false /\
  holding g = false /\ forall st, standing (waking st) g = false.
Proof.
  unfold runnable, finished, standing, holding.
  destruct (pc g) as [f |].
  - destruct f; try discriminate. intros H. apply Z.ltb_ge in H.
    repeat split; auto.
  - destruct (pending g); [| discriminate]. intros _. repeat split; auto.
Qed.

(** With every goroutine stopped, none is parked: all have finished. *)
Lemma stopped_is_finished (s : system) :
  paired_inv s -> token_inv s -> waiter_inv s -> waker_inv s ->
  (forall i g, gs s !! i = Some g -> runnable (mu s) g = false) ->
  forall i g, gs s !! i = Some g -> finished g = true.
Proof.
  intros [_ Hhold] (_ & _ & Htok) (Hst & Hs & Hwait) Hwaker Hstop i g Hg.
  destruct (not_runnable _ _ (Hstop i g Hg)) as ([Hfin | [Hpc Hsema]] & _);
    [exact Hfin | exfalso].
  assert (HL : 1 <= tally (standing at_lsema) (gs s)).
  { apply (tally_lookup _ _ i g Hg). unfold standing. rewrite Hpc. reflexivity. }
  assert (HU : tally (standing at_usema) (gs s) = 0).
  { apply tally_none. intros j h Hh.
    exact (proj1 (proj2 (not_runnable _ _ (Hstop j h Hh)))). }
  assert (HA : tally (standing awoke_of) (gs s) = 0).
  { apply tally_none. intros j h Hh.
    exact (proj1 (proj2 (proj2 (not_runnable _ _ (Hstop j h Hh))))). }
  assert (HH : holders (gs s) = 0%nat).
  { apply holders_none. intros j h Hh.
    exact (proj1 (proj2 (proj2 (proj2 (not_runnable _ _ (Hstop j h Hh)))))). }
  assert (Hlocked : locked (state (mu s)) = false).
  { rewrite HH in Hhold. destruct (locked (state (mu s))); [discriminate | reflexivity]. }
  assert (Hwoken : woken (state (mu s)) = false).
  { unfold wakeups in Htok. rewrite HU, HA in Htok.
    destruct (woken (state (mu s))); [simpl in Htok; lia | reflexivity]. }
  assert (Hwaiters : waiters (state (mu s)) <> 0) by lia.
  assert (Hneed : needs_wake (state (mu s)) = true).
  { unfold needs_wake. rewrite Hlocked, Hwoken. simpl.
    apply negb_true_iff, Z.eqb_neq. exact Hwaiters. }
  destruct (tally_positive _ _ (Hwaker Hneed)) as (j & h & Hh & Hw).
  rewrite (proj2 (proj2 (proj2 (proj2 (not_runnable _ _ (Hstop j h Hh)))))) in Hw.
  discriminate.
Qed.

Lemma boot_length (progs : list (list call)) :
  length (gs (boot progs)) = length progs.
Proof. unfold boot. simpl. apply length_map. Qed.

Lemma reach_paired (progs : list (list call)) (sched : list (nat * bool)) :
  forallb paired progs = true ->
  fatal (fst (exec sched (boot progs))) = None /\
  paired_inv (fst (exec sched (boot progs))) /\
  token_inv (fst (exec sched (boot progs))).
Proof.
  intros Hp.
  pose proof (exec_paired_safe sched (boot progs) (boot_ok progs)
                (boot_paired progs Hp) (boot_tokens progs) eq_refl) as Hf.
  split; [exact Hf |]. split.
  - exact (exec_paired sched (boot progs) (boot_ok progs) (boot_paired progs Hp)).
  - destruct (exec_tokens sched (boot progs) (boot_ok progs) (boot_tokens progs))
      as [[_ H] | H]; [exact H | congruence].
Qed.

(** ** What every execution keeps *)


(** X2. As long as no panic has occurred, the woken bit counts the wake-ups
    in flight: the goroutines whose [awoke] is true, the Unlock calls about
    to release the semaphore and the credits in the semaphore add up to 1
    when woken is set and to 0 when it is clear.  So the semaphore never
    holds more than one credit. *)
Theorem one_wakeup_in_flight (progs : list (list call)) (sched : list (nat * bool)) :
  fatal (fst (exec sched (boot progs))) = None ->
  wakeups (fst (exec sched (boot progs)))
  = b2z (woken (state (mu (fst (exec sched (boot progs)))))) /\
  0 <= sema (mu (fst (exec sched (boot progs)))) <= 1.
Proof.
  intros Hf.
  destruct (exec_tokens sched (boot progs) (boot_ok progs) (boot_tokens progs))
    as [[_ (Hfresh & Hs & Hw)] | H]; [| congruence].
  split; [exact Hw |]. unfold wakeups in Hw.
  pose proof (tally_nonneg (standing awoke_of) (gs (fst (exec sched (boot progs))))).
  pose proof (tally_nonneg (standing at_usema) (gs (fst (exec sched (boot progs))))).
  destruct (woken _); simpl in Hw; lia.
Qed.

(** X3. With fewer than 2^29 goroutines and no panic, the state word stays
    a non-negative int32 and every parked caller is accounted for: the
    goroutines inside the semaphore acquire are as many as the waiter count
    of the state word, plus the credits in the semaphore, plus the Unlock
    calls about to release it. *)
Theorem parked_callers_accounted (progs : list (list call))
    (sched : list (nat * bool)) :
  Z.of_nat (length progs) < 2 ^ 29 ->
  fatal (fst (exec sched (boot progs))) = None ->
  0 <= state (mu (fst (exec sched (boot progs)))) < 2 ^ 31 /\
  0 <= waiters (state (mu (fst (exec sched (boot progs))))) <= Z.of_nat (length progs) /\
  waiters (state (mu (fst (exec sched (boot progs)))))
  + sema (mu (fst (exec sched (boot progs))))
  + tally (standing at_usema) (gs (fst (exec sched (boot progs))))
  = tally (standing at_lsema) (gs (fst (exec sched (boot progs)))).
Proof.
  intros Hn Hf. change (2 ^ 29) with 536870912 in Hn.
  change (2 ^ 31) with 2147483648.
  rewrite <- (boot_length progs) in Hn.
  destruct (exec_waiters sched (boot progs) (boot_ok progs) Hn
              (fun _ => boot_waiters progs)) as [Hinv Hlen].
  destruct (Hinv Hf) as (Hst & Hs & Hw).
  set (s := fst (exec sched (boot progs))) in *.
  pose proof (tally_nonneg (standing at_usema) (gs s)) as Hu.
  pose proof (tally_length (standing at_lsema) (gs s)) as Hl.
  rewrite Hlen in Hl. rewrite boot_length in Hn, Hl.
  split; [| split; [| exact Hw]].
  - unfold waiters in Hw. change mutexWaiterShift with 2 in Hw.
    rewrite Bits.shiftr_2 in Hw. Z.div_mod_to_equations; lia.
  - unfold waiters in *. change mutexWaiterShift with 2 in *.
    rewrite Bits.shiftr_2 in *. Z.div_mod_to_equations; lia.
Qed.

(** X4. No wake-up is lost: as long as no panic has occurred, whenever the
    state word is unlocked, has no woken bit and counts a waiter, some
    Unlock call stands at its test of line 124 or at its compare-and-swap
    of line 129 with exactly that word in [old], so that it will go on to
    wake a waiter. *)
Theorem needed_wake_has_waker (progs : list (list call))
    (sched : list (nat * bool)) :
  fatal (fst (exec sched (boot progs))) = None ->
  locked (state (mu (fst (exec sched (boot progs))))) = false ->
  woken (state (mu (fst (exec sched (boot progs))))) = false ->
  waiters (state (mu (fst (exec sched (boot progs))))) <> 0 ->
  exists i g,
    gs (fst (exec sched (boot progs))) !! i = Some g /\
    (pc g = Some (UCheck (state (mu (fst (exec sched (boot progs))))))
     \/ exists new,
          pc g = Some (UCAS (state (mu (fst (exec sched (boot progs))))) new)).
Proof.
  intros Hf Hl Hw Hn.
  pose proof (exec_waker sched (boot progs) (boot_ok progs)
                (fun _ => boot_waker progs) Hf) as Hinv.
  set (s := fst (exec sched (boot progs))) in *.
  assert (Hneed : needs_wake (state (mu s)) = true).
  { unfold needs_wake. rewrite Hl, Hw. simpl.
    apply negb_true_iff, Z.eqb_neq. exact Hn. }
  destruct (tally_positive _ _ (Hinv Hneed)) as (i & g & Hg & Hst).
  exists i, g. split; [exact Hg |].
  unfold standing in Hst. destruct (pc g) as [f |]; [| discriminate].
  destruct f; simpl in Hst; try discriminate; apply Z.eqb_eq in Hst; subst.
  - left. reflexivity.
  - right. eexists. reflexivity.
Qed.

(** X5. Callers that pair every Lock with a following Unlock of their own
    never make the process panic, under any schedule. *)
Theorem paired_callers_never_panic (progs : list (list call))
    (sched : list (nat * bool)) :
  forallb paired progs = true ->
  fatal (fst (exec sched (boot progs))) = None.
Proof. intros Hp. exact (proj1 (reach_paired progs sched Hp)). Qed.

(** X6. Such callers, fewer than 2^29 of them, never get stuck: in every
    state they can reach, either every goroutine has made all its calls or
    some goroutine has a transition that changes the system.  In
    particular the callers parked in the semaphore are never the only ones
    left. *)
Theorem paired_callers_progress (progs : list (list call))
    (sched : list (nat * bool)) :
  forallb paired progs = true ->
  Z.of_nat (length progs) < 2 ^ 29 ->
  (forall i g, gs (fst (exec sched (boot progs))) !! i = Some g ->
               finished g = true) \/
  (exists i g, gs (fst (exec sched (boot progs))) !! i = Some g /\
               runnable (mu (fst (exec sched (boot progs)))) g = true /\
               forall b, fst (sys_step i b (fst (exec sched (boot progs))))
                         <> fst (exec sched (boot progs))).
Proof.
  intros Hp Hn. change (2 ^ 29) with 536870912 in Hn.
  rewrite <- (boot_length progs) in Hn.
  destruct (reach_paired progs sched Hp) as (Hf & Hpi & Hti).
  destruct (exec_waiters sched (boot progs) (boot_ok progs) Hn
              (fun _ => boot_waiters progs)) as [Hwi _].
  specialize (Hwi Hf).
  pose proof (exec_waker sched (boot progs) (boot_ok progs)
                (fun _ => boot_waker progs) Hf) as Hki.
  set (s := fst (exec sched (boot progs))) in *.
  destruct (Z_lt_le_dec 0 (tally (runnable (mu s)) (gs s))) as [Hpos | Hzero].
  - right. destruct (tally_positive _ _ Hpos) as (i & g & Hg & Hr).
    exists i, g. split; [exact Hg |]. split; [exact Hr |].
    intros b. exact (runnable_moves s i g b Hf Hg Hr).
  - left. apply (stopped_is_finished s Hpi Hti Hwi Hki).
    intros i g Hg. exact (tally_zero _ _ i g Hzero Hg).
Qed.

(** ** Callers that never unlock *)

Lemma step_in_lock (b : bool) (f : frame) (m m' : Mutex) (o : outcome)
    (evs : list event) :
  in_unlock f = false -> step b f m = (o, m', evs) ->
  count is_released evs = 0%nat /\ after o in_unlock = false.
Proof.
  intros Hu Hstep. destruct f; try discriminate.
  all: simpl in Hstep;
    unfold CompareAndSwapInt32, runtime_Semacquire, runtime_Semrelease in Hstep;
    branches; inversion Hstep; subst; clear Hstep; split; reflexivity.
Qed.

Lemma sys_step_lock_only (i : nat) (b : bool) (s : system) :
  lock_only s ->
  lock_only (fst (sys_step i b s)) /\
  count is_released (snd (sys_step i b s)) = 0%nat.
Proof.
  intros Hall. unfold sys_step.
  destruct (fatal s); [split; [exact Hall | reflexivity] |].
  destruct (gs s !! i) as [g |] eqn:Hg; [| split; [exact Hall | reflexivity]].
  destruct (proj1 (Forall_lookup _ _) Hall i g Hg) as [Hp Hs].
  unfold standing in Hs.
  destruct (pc g) as [f |] eqn:Hpc.
  - destruct (step b f (mu s)) as [[o m'] evs] eqn:Hstep.
    destruct (step_in_lock b f (mu s) m' o evs Hs Hstep) as [Hr Ha].
    destruct o; simpl; (split; [| first [exact Hr | reflexivity]]);
      try exact Hall.
    + apply Forall_insert; [exact Hall |]. split; [exact Hp | exact Ha].
    + apply Forall_insert; [exact Hall |]. split; [exact Hp | reflexivity].
  - destruct (pending g) as [| c rest]; [split; [exact Hall | reflexivity] |].
    simpl. split; [| reflexivity].
    apply Forall_insert; [exact Hall |].
    simpl in Hp. destruct c; [| discriminate]. split; [exact Hp | reflexivity].
Qed.

Lemma exec_lock_only (sched : list (nat * bool)) (s : system) :
  lock_only s -> count is_released (snd (exec sched s)) = 0%nat.
Proof.
  revert s. induction sched as [| [i b] sched IH]; intros s Hall; simpl.
  - reflexivity.
  - destruct (sys_step_lock_only i b s Hall) as [H1 E1].
    destruct (sys_step i b s) as [s1 e1]. simpl in H1, E1.
    specialize (IH s1 H1). destruct (exec sched s1) as [s2 e2]. simpl in *.
    rewrite count_app, E1, IH. reflexivity.
Qed.

Lemma boot_lock_only (progs : list (list call)) :
  forallb only_lock progs = true -> lock_only (boot progs).
Proof.
  intros Hp. unfold lock_only, boot. simpl.
  induction progs as [| p progs IH]; simpl in *; [constructor |].
  apply andb_true_iff in Hp as [Hp Hps].
  constructor; [split; [exact Hp | reflexivity] | exact (IH Hps)].
Qed.

Lemma locks_left_insert (l : list goroutine) (i : nat) (g g' : goroutine) :
  l !! i = Some g ->
  (locks_left (<[i:=g']> l) + locks_open g = locks_left l + locks_open g')%nat.
Proof.
  revert i. induction l as [| x l IH]; intros i Hl; [discriminate |].
  destruct i as [| i]; simpl in *.
  - inversion Hl; subst. lia.
  - specialize (IH i Hl). lia.
Qed.

Lemma step_acquired (b : bool) (f : frame) (m m' : Mutex) (o : outcome)
    (evs : list event) :
  step b f m = (o, m', evs) ->
  match o with
  | Goto f' => in_unlock f' = in_unlock f /\ count is_acquired evs = 0%nat
  | Return => count is_acquired evs = (if in_unlock f then 0 else 1)%nat
  | Panic _ | Block => count is_acquired evs = 0%nat
  end.
Proof.
  intros Hstep. destruct f.
  all: try rewrite unlock_add in Hstep; cbv zeta in Hstep.
  all: simpl in Hstep;
    unfold CompareAndSwapInt32, runtime_Semacquire, runtime_Semrelease in Hstep;
    repeat match type of Hstep with
    | context [if ?c then _ else _] => destruct c eqn:?
    end;
    inversion Hstep; subst; clear Hstep; simpl; try split; reflexivity.
Qed.

Lemma sys_step_locks (i : nat) (b : bool) (s : system) :
  (locks_left (gs (fst (sys_step i b s)))
   + count is_acquired (snd (sys_step i b s)) = locks_left (gs s))%nat.
Proof.
  unfold sys_step.
  destruct (fatal s); [simpl; lia |].
  destruct (gs s !! i) as [g |] eqn:Hg; [| simpl; lia].
  destruct (pc g) as [f |] eqn:Hpc.
  - destruct (step b f (mu s)) as [[o m'] evs] eqn:Hstep.
    pose proof (step_acquired b f (mu s) m' o evs Hstep) as Ha.
    destruct o; simpl.
    + destruct Ha as [Hu Ha].
      pose proof (locks_left_insert (gs s) i g (mkG (pending g) (Some f0)) Hg) as Hi.
      unfold locks_open in Hi. simpl in Hi. rewrite Hpc, Hu in Hi. lia.
    + pose proof (locks_left_insert (gs s) i g (mkG (pending g) None) Hg) as Hi.
      unfold locks_open in Hi. simpl in Hi. rewrite Hpc in Hi.
      destruct (in_unlock f); lia.
    + lia.
    + lia.
  - destruct (pending g) as [| c rest] eqn:Hpend; [simpl; lia |]. simpl.
    pose proof (locks_left_insert (gs s) i g (mkG rest (Some (entry c))) Hg) as Hi.
    unfold locks_open in Hi. simpl in Hi. rewrite Hpc, Hpend in Hi.
    destruct c; simpl in *; lia.
Qed.

Lemma exec_locks (sched : list (nat * bool)) (s : system) :
  (locks_left (gs (fst (exec sched s)))
   + count is_acquired (snd (exec sched s)) = locks_left (gs s))%nat.
Proof.
  revert s. induction sched as [| [i b] sched IH]; intros s; simpl; [lia |].
  pose proof (sys_step_locks i b s) as H1.
  destruct (sys_step i b s) as [s1 e1]. simpl in H1.
  specialize (IH s1). destruct (exec sched s1) as [s2 e2]. simpl in *.
  rewrite count_app. lia.
Qed.

(** X7. When no caller ever calls Unlock, at most one call of Lock returns
    in the whole execution, whatever the number of goroutines and the
    schedule: of all the calls of Lock to be made, all but one at most are
    still open, spinning or parked.  So a goroutine that calls Lock twice
    in a row never returns from the second call. *)
Theorem lock_without_unlock (progs : list (list call)) (sched : list (nat * bool)) :
  forallb only_lock progs = true ->
  (count is_acquired (snd (exec sched (boot progs))) <= 1)%nat /\
  count is_released (snd (exec sched (boot progs))) = 0%nat /\
  (locks_left (gs (boot progs))
   <= locks_left (gs (fst (exec sched (boot progs)))) + 1)%nat.
Proof.
  intros Hp.
  pose proof (exec_lock_only sched (boot progs) (boot_lock_only progs Hp)) as Hr.
  pose proof (exec_balanced sched (boot progs) 0 0 (boot_ok progs) eq_refl) as Hb.
  simpl in Hb. rewrite Hr in Hb. unfold balanced in Hb.
  assert (Hone : (count is_acquired (snd (exec sched (boot progs))) <= 1)%nat).
  { destruct (fatal _); [lia |]. destruct (locked _); simpl in Hb; lia. }
  split; [exact Hone |]. split; [exact Hr |].
  pose proof (exec_locks sched (boot progs)). lia.
Qed.

(** ** One call with nobody else running *)

(** X8. Unlock running alone ends within four transitions, on any mutex.
    With the lock bit clear it panics, leaving the state word decremented.
    Otherwise it returns with the lock bit dropped; if the word then counts
    a waiter and has no woken bit, it also takes one waiter off the count,
    sets the woken bit and releases the semaphore once, and else it leaves
    the semaphore alone. *)
Theorem unlock_alone (m : Mutex) (answers : list bool) :
  (4 <= length answers)%nat ->
  fst (call_alone answers UAdd m) =
    (if locked (state m)
     then
       if needs_wake (Int32.sub (state m) mutexLocked)
       then (Return,
             mkMutex
               (Z.lor (Int32.sub (Int32.sub (state m) mutexLocked)
                                 (Z.shiftl 1 mutexWaiterShift)) mutexWoken)
               (Uint32.wrap (sema m + 1)))
       else (Return, set_state m (Int32.sub (state m) mutexLocked))
     else (Panic unlocked_msg, set_state m (Int32.sub (state m) mutexLocked))) /\
  count is_semrelease (snd (call_alone answers UAdd m)) =
    (if locked (state m) && needs_wake (Int32.sub (state m) mutexLocked)
     then 1 else 0)%nat.
Proof.
  intros Hlen.
  destruct answers as [| b1 [| b2 [| b3 [| b4 rest]]]]; simpl in Hlen; try lia.
  cbn [call_alone]. rewrite unlock_add. cbv zeta.
  destruct (locked (state m)) eqn:El; [| split; reflexivity].
  cbn [step]. rewrite unlock_check_needs.
  destruct (needs_wake (Int32.sub (state m) mutexLocked)) eqn:En; simpl negb;
    cbv iota; [| split; reflexivity].
  cbn [step]. unfold CompareAndSwapInt32, set_state. cbn [state sema].
  rewrite Z.eqb_refl. cbn [step]. split; reflexivity.
Qed.

(** X9. Lock running alone on a mutex whose lock bit is clear returns
    within four transitions, whatever the waiter count and the woken bit:
    it sets the lock bit and changes nothing else, without asking the spin
    advisor and without touching the semaphore. *)
Theorem lock_alone_free (m : Mutex) (answers : list bool) :
  locked (state m) = false -> (4 <= length answers)%nat ->
  fst (call_alone answers LFast m) =
    (Return, set_state m (Z.lor (state m) mutexLocked)) /\
  count is_slow (snd (call_alone answers LFast m)) = 0%nat /\
  locked (Z.lor (state m) mutexLocked) = true /\
  woken (Z.lor (state m) mutexLocked) = woken (state m) /\
  waiters (Z.lor (state m) mutexLocked) = waiters (state m).
Proof.
  intros Hl Hlen.
  destruct answers as [| b1 [| b2 [| b3 [| b4 rest]]]]; simpl in Hlen; try lia.
  assert (Hland : (Z.land (state m) mutexLocked =? 0) = true).
  { unfold locked in Hl. apply negb_false_iff in Hl. exact Hl. }
  split; [| split; [| split; [| split]]].
  - cbn [call_alone step]. unfold CompareAndSwapInt32.
    destruct (state m =? 0) eqn:E0.
    + apply Z.eqb_eq in E0. unfold set_state. rewrite E0. reflexivity.
    + cbn [step]. rewrite Hland. simpl negb. cbv iota. cbn [step].
      unfold CompareAndSwapInt32. rewrite Z.eqb_refl, Hland. reflexivity.
  - cbn [call_alone step]. unfold CompareAndSwapInt32.
    destruct (state m =? 0) eqn:E0; [reflexivity |].
    cbn [step]. rewrite Hland. simpl negb. cbv iota. cbn [step].
    unfold CompareAndSwapInt32. rewrite Z.eqb_refl, Hland. reflexivity.
  - apply Word.locked_odd. arith_lia.
  - apply WordMore.lor_locked_woken.
  - arith_lia.
Qed.

(** *** Lock on a mutex that stays locked *)

Lemma step_lock_sema (b : bool) (f : frame) (m m' : Mutex) (o : outcome)
    (evs : list event) :
  in_unlock f = false -> sema m <= 0 -> step b f m = (o, m', evs) ->
  sema m' = sema m /\ (o = Block -> m' = m).
Proof.
  intros Hu Hs Hstep. destruct f; try discriminate.
  all: simpl in Hstep; unfold CompareAndSwapInt32, runtime_Semacquire in Hstep;
    branches; inversion Hstep; subst; clear Hstep; simpl; auto.
  all: try (split; [reflexivity | discriminate]).
  match goal with H : (0 <? _) = true |- _ => apply Z.ltb_lt in H; lia end.
Qed.

Lemma step_alone_locked (b : bool) (f : frame) (m m' : Mutex) (o : outcome)
    (evs : list event) :
  alone_locked f m -> step b f m = (o, m', evs) ->
  match o with
  | Goto f' => alone_locked f' m'
  | Block => m' = m
  | Return | Panic _ => False
  end.
Proof.
  intros (Hu & Hok & Hfresh & Hl & Hs & Haw) Hstep.
  pose proof (step_balance b f m m' o evs Hok Hstep) as Hbal.
  pose proof (step_acquired b f m m' o evs Hstep) as Hacq.
  destruct (step_in_lock b f m m' o evs Hu Hstep) as [Hrel Hafter].
  destruct (step_lock_sema b f m m' o evs Hu ltac:(lia) Hstep) as [Hsema Hblock].
  pose proof (step_tokens b f m m' o evs Hok Hfresh Haw ltac:(lia) Hstep) as Htok.
  destruct o.
  - destruct Hacq as [Hu' Hacq]. destruct Htok as (Hfresh' & _ & Htok).
    rewrite Hl, Hacq, Hrel in Hbal. simpl in Hbal.
    assert (Hl' : locked (state m') = true)
      by (destruct (locked (state m')); [reflexivity | simpl in Hbal; lia]).
    unfold alone_locked. rewrite Hu'. repeat split; auto.
    + exact (step_frame_ok _ _ _ _ _ _ Hok Hstep).
    + lia.
    + intros Haw'. unfold tok in Htok. rewrite Haw' in Htok.
      assert (Hus : at_usema f0 = false) by (destruct f0; try reflexivity; discriminate).
      assert (Hus0 : at_usema f = false) by (destruct f; try reflexivity; discriminate).
      rewrite Hus, Hus0 in Htok. simpl in Htok.
      destruct (woken (state m')); [reflexivity |].
      destruct (awoke_of f); [rewrite (Haw eq_refl) in Htok |]; simpl in Htok;
        [lia |]. destruct (woken (state m)); simpl in Htok; lia.
  - rewrite Hu in Hacq. rewrite Hl, Hacq, Hrel in Hbal.
    destruct (locked (state m')); simpl in Hbal; lia.
  - destruct (step_panic_cases _ _ _ _ _ _ Hstep)
      as [[-> _] | (it & old & n & -> & Hw)]; [discriminate |].
    simpl in Hfresh. congruence.
  - exact (Hblock eq_refl).
Qed.

Lemma call_alone_locked (answers : list bool) (f : frame) (m : Mutex) :
  alone_locked f m ->
  (fst (fst (call_alone answers f m)) = Block \/
   exists f', fst (fst (call_alone answers f m)) = Goto f') /\
  locked (state (snd (fst (call_alone answers f m)))) = true /\
  count is_acquired (snd (call_alone answers f m)) = 0%nat.
Proof.
  revert f m. induction answers as [| b answers IH]; intros f m Hinv.
  - simpl. split; [right; eexists; reflexivity |].
    split; [exact (proj1 (proj2 (proj2 (proj2 Hinv)))) | reflexivity].
  - cbn [call_alone].
    pose proof (step_alone_locked b f m) as Hs.
    pose proof (step_acquired b f m) as Ha.
    destruct (step b f m) as [[o m'] evs].
    specialize (Hs m' o evs Hinv eq_refl). specialize (Ha m' o evs eq_refl).
    destruct o; try contradiction.
    + destruct (IH f0 m' Hs) as (H1 & H2 & H3).
      destruct (call_alone answers f0 m') as [[o2 m2] e2]. simpl in *.
      split; [exact H1 |]. split; [exact H2 |].
      rewrite count_app, H3, (proj2 Ha). reflexivity.
    + subst m'. simpl. split; [left; reflexivity |].
      split; [exact (proj1 (proj2 (proj2 (proj2 Hinv)))) | exact Ha].
Qed.

(** X10. Lock running alone on a mutex whose lock bit is set, with no
    credit in the semaphore, never returns and never panics, whatever the
    spin advisor answers and however long it runs: it is still spinning, or
    it is parked, and the lock bit is still set. *)
Theorem lock_alone_on_locked (m : Mutex) (answers : list bool) :
  locked (state m) = true -> sema m = 0 ->
  (fst (fst (call_alone answers LFast m)) = Block \/
   exists f', fst (fst (call_alone answers LFast m)) = Goto f') /\
  locked (state (snd (fst (call_alone answers LFast m)))) = true /\
  count is_acquired (snd (call_alone answers LFast m)) = 0%nat.
Proof.
  intros Hl Hs.
  assert (Hinv : alone_locked LFast m).
  { unfold alone_locked. repeat split; auto. discriminate. }
  exact (call_alone_locked answers LFast m Hinv).
Qed.

(** ** A call of Lock under interference *)

Lemma count_zero_not_in (p : event -> bool) (e : event) (l : list event) :
  count p l = 0%nat -> p e = true -> ~ In e l.
Proof.
  induction l as [| x l IH]; simpl; intros Hc Hp; [tauto |].
  intros [-> | Hin].
  - rewrite Hp in Hc. discriminate.
  - destruct (p x); [discriminate |]. exact (IH Hc Hp Hin).
Qed.

Lemma step_lock_return (b : bool) (f : frame) (m m' : Mutex) (evs : list event) :
  frame_ok f -> in_unlock f = false -> step b f m = (Return, m', evs) ->
  exists old new,
    evs = [EvCAS old new true; EvAcquired] /\
    state m = old /\ state m' = new /\
    locked old = false /\ locked new = true /\ waiters new = waiters old.
Proof.
  intros Hok Hu Hstep. destruct f; try discriminate.
  all: simpl in Hstep; unfold CompareAndSwapInt32, runtime_Semacquire in Hstep;
    branches; inversion Hstep; subst; clear Hstep.
  - eexists _, _. split; [reflexivity |].
    match goal with H : (state m =? 0) = true |- _ => apply Z.eqb_eq in H end.
    repeat split; auto.
  - match goal with H : (state m =? _) = true |- _ => apply Z.eqb_eq in H end.
    eexists _, _. split; [reflexivity |].
    assert (Hl : locked old = false).
    { unfold locked.
      match goal with H : (Z.land _ _ =? 0) = true |- _ => rewrite H end.
      reflexivity. }
    destruct Hok as [-> _]. split; [assumption |]. split; [reflexivity |].
    split; [exact Hl |]. split.
    + destruct awoke; rewrite ?WordMore.ldiff_woken_locked;
        apply WordMore.candidate_is_locked.
    + unfold candidate. rewrite Hl. destruct awoke; arith_lia.
Qed.

(** X11. Under any interference, a call of Lock returns only by winning a
    compare-and-swap of its own on a state word whose lock bit was clear:
    the last two events of the call are that compare-and-swap and the
    return, the new word has the lock bit and the same waiter count, and
    the call shows no other acquisition. *)
Theorem lock_returns_by_cas (env : list (bool * Mutex)) :
  In EvAcquired (snd (call_run env LFast)) ->
  exists pre old new,
    snd (call_run env LFast) = pre ++ [EvCAS old new true; EvAcquired] /\
    locked old = false /\ locked new = true /\ waiters new = waiters old /\
    count is_acquired pre = 0%nat.
Proof.
  assert (H : forall f, frame_ok f -> in_unlock f = false ->
            In EvAcquired (snd (call_run env f)) ->
            exists pre old new,
              snd (call_run env f) = pre ++ [EvCAS old new true; EvAcquired] /\
              locked old = false /\ locked new = true /\
              waiters new = waiters old /\ count is_acquired pre = 0%nat).
  { induction env as [| [b m] env IH]; intros f Hok Hu Hin; simpl in *.
    - contradiction.
    - pose proof (step_acquired b f m) as Ha.
      destruct (step b f m) as [[o m'] evs] eqn:Hstep.
      specialize (Ha m' o evs eq_refl). destruct o.
      + destruct Ha as [Hu' Ha].
        pose proof (step_frame_ok _ _ _ _ _ _ Hok Hstep) as Hok'.
        specialize (IH f0 Hok' ltac:(congruence)).
        destruct (call_run env f0) as [fs tr]. simpl in *.
        apply in_app_or in Hin as [Hin | Hin];
          [exfalso; exact (count_zero_not_in is_acquired EvAcquired _ Ha eq_refl Hin) |].
        destruct (IH Hin) as (pre & old & new & -> & H1 & H2 & H3 & H4).
        exists (evs ++ pre), old, new. rewrite app_assoc.
        split; [reflexivity |]. repeat split; auto.
        rewrite count_app, Ha, H4. reflexivity.
      + destruct (step_lock_return _ _ _ _ _ Hok Hu Hstep)
          as (old & new & -> & _ & _ & H1 & H2 & H3).
        exists [], old, new. simpl. repeat split; auto.
      + simpl in Hin. exfalso. exact (count_zero_not_in is_acquired EvAcquired _ Ha eq_refl Hin).
      + specialize (IH f Hok Hu). destruct (call_run env f) as [fs tr].
        exact (IH Hin). }
  exact (H LFast I eq_refl).
Qed.

(** *** What spinning leaves behind *)

Lemma step_spun (s : Z) (b : bool) (f : frame) (m m' : Mutex) (o : outcome)
    (evs : list event) :
  spun s f m -> step b f m = (o, m', evs) ->
  match o with
  | Goto f' => spun s f' m'
  | Block => m' = m /\ f = LSema
  | Return | Panic _ => False
  end.
Proof.
  intros (Hs & Hl & Hf) Hstep. destruct f; try contradiction.
  all: simpl in Hstep; unfold CompareAndSwapInt32, runtime_Semacquire in Hstep;
    branches; inversion Hstep; subst; clear Hstep; unfold spun, spun_word in *;
    simpl in *.
  all: repeat match goal with
       | H : _ /\ _ |- _ => destruct H
       | H : (_ && _) = true |- _ => apply andb_true_iff in H as [? ?]
       end; subst.
  all: repeat match goal with
       | H : context [if ?a then _ else _] |- _ => destruct a
       | H : _ /\ _ |- _ => destruct H
       | H : negb ?a = true |- _ => is_var a; destruct a; [discriminate |]
       | H : (0 <? _) = true |- _ => apply Z.ltb_lt in H
       | H : (0 <? _) = false |- _ => apply Z.ltb_ge in H
       end; subst.
  all: rewrite ?Z.eqb_refl in *; try discriminate; try lia.
  all: try (split; [reflexivity | reflexivity]).
  all: repeat match goal with
       | |- _ /\ _ => split
       end; try reflexivity; try assumption.
  all: try (exfalso; arith; Z.div_mod_to_equations; lia).
  all: try (arith; Z.div_mod_to_equations; lia).
Qed.

Lemma call_alone_spun (s : Z) (answers : list bool) (f : frame) (m : Mutex) :
  spun s f m ->
  match fst (fst (call_alone answers f m)) with
  | Block =>
      state (snd (fst (call_alone answers f m)))
      = Int32.add s (Z.shiftl 1 mutexWaiterShift) /\
      sema (snd (fst (call_alone answers f m))) = 0
  | Goto f' => spun s f' (snd (fst (call_alone answers f m)))
  | Return | Panic _ => False
  end.
Proof.
  revert f m. induction answers as [| b answers IH]; intros f m Hinv.
  - exact Hinv.
  - cbn [call_alone]. pose proof (step_spun s b f m) as Hs.
    destruct (step b f m) as [[o m'] evs].
    specialize (Hs m' o evs Hinv eq_refl).
    destruct o; try contradiction.
    + specialize (IH f0 m' Hs).
      destruct (call_alone answers f0 m') as [[o2 m2] e2]. exact IH.
    + destruct Hs as [-> ->]. simpl. destruct Hinv as (Hsema & _ & Hst).
      split; assumption.
Qed.

(** X12. Spinning leaves no trace: whenever Lock, running alone on a mutex
    whose lock bit is set and whose semaphore is empty, ends up parked,
    the state word is the one it found plus exactly one waiter, whatever
    the spin advisor answered before; a woken bit the caller set while
    spinning has been cleared by the compare-and-swap that registered it.
    When the advisor refuses the first spin the call parks at its sixth
    transition. *)
Theorem lock_alone_parks (m : Mutex) (answers : list bool) :
  locked (state m) = true -> sema m = 0 ->
  (fst (fst (call_alone answers LFast m)) = Block ->
   snd (fst (call_alone answers LFast m)) =
     set_state m (Int32.add (state m) (Z.shiftl 1 mutexWaiterShift))) /\
  (forall b1 b2 b4 b5 b6 rest,
     answers = b1 :: b2 :: false :: b4 :: b5 :: b6 :: rest ->
     fst (fst (call_alone answers LFast m)) = Block).
Proof.
  intros Hl Hs. split.
  - intros Hb.
    assert (Hinv : spun (state m) LFast m) by (repeat split; assumption).
    pose proof (call_alone_spun (state m) answers LFast m Hinv) as H.
    rewrite Hb in H. destruct H as [Hst Hsema].
    destruct (snd (fst (call_alone answers LFast m))) as [st se].
    simpl in Hst, Hsema. unfold set_state. rewrite Hs. subst. reflexivity.
  - intros b1 b2 b4 b5 b6 rest ->.
    assert (Hland : (Z.land (state m) mutexLocked =? 0) = false).
    { unfold locked in Hl. apply negb_true_iff in Hl. exact Hl. }
    assert (Hnz : (state m =? 0) = false).
    { apply Z.eqb_neq. intros H0. rewrite H0 in Hland. discriminate. }
    cbn [call_alone step]. unfold CompareAndSwapInt32. rewrite Hnz.
    cbn [step]. rewrite Hland. simpl negb. cbv iota. cbn [step].
    unfold CompareAndSwapInt32. rewrite Z.eqb_refl, Hland.
    cbn [step]. unfold runtime_Semacquire, set_state. cbn [sema state].
    rewrite Hs. reflexivity.
Qed.

(** ** A call of Unlock under interference *)

Lemma step_unlock_quiet (b : bool) (f : frame) (m : Mutex) :
  in_unlock f = true ->
  fst (fst (step b f m)) <> Block /\
  count is_wait (snd (step b f m)) = 0%nat /\
  after (fst (fst (step b f m))) in_unlock
  = match fst (fst (step b f m)) with Goto _ => true | _ => false end.
Proof.
  intros Hu. destruct f; try discriminate.
  all: try rewrite unlock_add; cbv zeta.
  all: simpl; unfold CompareAndSwapInt32; branches; simpl;
    repeat split; discriminate.
Qed.

(** X13. Under any interference, Unlock never waits: no transition of the
    call parks it, asks the spin advisor, spins or acquires the semaphore,
    and the call never leaves the control points of Unlock. *)
Theorem unlock_never_waits (env : list (bool * Mutex)) :
  count is_wait (snd (call_run env UAdd)) = 0%nat /\
  (forall f, In f (fst (call_run env UAdd)) ->
     in_unlock f = true /\ forall b m, fst (fst (step b f m)) <> Block).
Proof.
  assert (H : forall f, in_unlock f = true ->
            count is_wait (snd (call_run env f)) = 0%nat /\
            (forall g, In g (fst (call_run env f)) -> in_unlock g = true)).
  { induction env as [| [b m] env IH]; intros f Hu; simpl.
    - split; [reflexivity |]. intros g [<- | []]. exact Hu.
    - destruct (step_unlock_quiet b f m Hu) as (Hnb & Hq & Ha).
      destruct (step b f m) as [[o m'] evs]. simpl in *. destruct o.
      + destruct (IH f0 Ha) as [IH1 IH2].
        destruct (call_run env f0) as [fs tr]. simpl in *.
        rewrite count_app, Hq, IH1. split; [reflexivity |].
        intros g [<- | Hin]; [exact Hu | exact (IH2 g Hin)].
      + split; [exact Hq |]. intros g [<- | []]. exact Hu.
      + split; [exact Hq |]. intros g [<- | []]. exact Hu.
      + congruence. }
  destruct (H UAdd eq_refl) as [H1 H2]. split; [exact H1 |].
  intros f Hin. split; [exact (H2 f Hin) |].
  intros b m. exact (proj1 (step_unlock_quiet b f m (H2 f Hin))).
Qed.

Lemma step_unlock_release (b : bool) (f : frame) (m m' : Mutex) (o : outcome)
    (evs : list event) :
  step b f m = (o, m', evs) ->
  count is_semrelease evs = (match f with USema => 1 | _ => 0 end)%nat /\
  match f, o with
  | UCAS old new, Goto USema => evs = [EvCAS old new true]
  | _, Goto USema => False
  | USema, _ => evs = [EvSemrelease; EvUnlockReturn] /\ o = Return
  | _, _ => True
  end.
Proof.
  intros Hstep. destruct f.
  all: try rewrite unlock_add in Hstep; cbv zeta in Hstep.
  all: simpl in Hstep;
    unfold CompareAndSwapInt32, runtime_Semacquire, runtime_Semrelease in Hstep;
    repeat match type of Hstep with
    | context [if ?c then _ else _] => destruct c eqn:?
    end;
    inversion Hstep; subst; clear Hstep; simpl; auto.
Qed.

(** X14. Under any interference, a call of Unlock that releases the
    semaphore does so right after winning its compare-and-swap of line 129,
    and that swap took a word with no lock bit, no woken bit and at least
    one waiter to the same word with the woken bit and, for a word in the
    int32 range of a waiter count, one waiter fewer.  The release is the
    last thing the call does before it returns. *)
Theorem unlock_release_by_cas (env : list (bool * Mutex)) :
  In EvSemrelease (snd (call_run env UAdd)) ->
  exists pre old new,
    snd (call_run env UAdd)
    = pre ++ [EvCAS old new true; EvSemrelease; EvUnlockReturn] /\
    new = Z.lor (Int32.sub old (Z.shiftl 1 mutexWaiterShift)) mutexWoken /\
    locked old = false /\ woken old = false /\ waiters old <> 0 /\
    locked new = false /\ woken new = true /\
    (0 <= old < 2 ^ 31 -> waiters new = waiters old - 1) /\
    count is_semrelease pre = 0%nat.
Proof.
  assert (Hlast : forall env' old new, frame_ok (UCAS old new) ->
            In EvSemrelease (snd (call_run env' USema)) ->
            snd (call_run env' USema) = [EvSemrelease; EvUnlockReturn]).
  { intros env' old new _ Hin. destruct env' as [| [b m] env']; simpl in *;
      [contradiction | reflexivity]. }
  assert (H : forall f, frame_ok f -> f <> USema ->
            In EvSemrelease (snd (call_run env f)) ->
            exists pre old new,
              snd (call_run env f)
              = pre ++ [EvCAS old new true; EvSemrelease; EvUnlockReturn] /\
              frame_ok (UCAS old new) /\ count is_semrelease pre = 0%nat).
  { induction env as [| [b m] env IH]; intros f Hok Hne Hin; simpl in *.
    - contradiction.
    - pose proof (step_unlock_release b f m) as Hr.
      destruct (step b f m) as [[o m'] evs] eqn:Hstep.
      destruct (Hr m' o evs eq_refl) as [Hc Hshape]. clear Hr.
      assert (Hc0 : count is_semrelease evs = 0%nat)
        by (destruct f; try exact Hc; congruence).
      destruct o.
      + pose proof (step_frame_ok _ _ _ _ _ _ Hok Hstep) as Hok'.
        destruct (at_usema f0) eqn:Eu;
          [assert (f0 = USema) by (destruct f0; try discriminate; reflexivity);
           subst f0
          | assert (Hne' : f0 <> USema) by (intros ->; discriminate)].
        * destruct f; try contradiction. subst evs.
          pose proof (Hlast env old new Hok) as Hl.
          destruct (call_run env USema) as [fs tr]. simpl in *.
          destruct Hin as [Hin | Hin]; [discriminate |].
          rewrite (Hl Hin).
          exists [], old, new. split; [reflexivity |]. split; [exact Hok | reflexivity].
        * specialize (IH f0 Hok' Hne').
          destruct (call_run env f0) as [fs tr]. simpl in *.
          apply in_app_or in Hin as [Hin | Hin];
            [exfalso; exact (count_zero_not_in is_semrelease EvSemrelease _ Hc0 eq_refl Hin) |].
          destruct (IH Hin) as (pre & old & new & -> & H1 & H2).
          exists (evs ++ pre), old, new. rewrite app_assoc.
          split; [reflexivity |]. split; [exact H1 |].
          rewrite count_app, Hc0, H2. reflexivity.
      + simpl in Hin. exfalso.
        exact (count_zero_not_in is_semrelease EvSemrelease _ Hc0 eq_refl Hin).
      + simpl in Hin. exfalso.
        exact (count_zero_not_in is_semrelease EvSemrelease _ Hc0 eq_refl Hin).
      + specialize (IH f Hok Hne). destruct (call_run env f) as [fs tr].
        exact (IH Hin). }
  intros Hin.
  destruct (H UAdd I ltac:(discriminate) Hin)
    as (pre & old & new & Htr & (Hnew & Hl & Hw & Hn) & Hpre).
  exists pre, old, new. split; [exact Htr |]. split; [exact Hnew |].
  split; [exact Hl |]. split; [exact Hw |]. split; [exact Hn |].
  subst new. split; [| split; [apply WordMore.lor_woken_set | split; [| exact Hpre]]].
  - rewrite Word.lor_woken_locked. apply Word.locked_even.
    apply Word.locked_even in Hl. arith_lia.
  - intros Hrange. change (2 ^ 31) with 2147483648 in Hrange.
    apply Word.locked_even in Hl. apply WordMore.woken_clear in Hw. arith_lia.
Qed.

(** ** Unlock hands the lock to a parked caller *)

Lemma unlock_alone_wakes (m : Mutex) (answers : list bool) :
  locked (state m) = true -> woken (state m) = false ->
  waiters (state m) <> 0 -> 0 <= state m < 2147483648 ->
  0 <= sema m < 4294967295 -> (4 <= length answers)%nat ->
  fst (call_alone answers UAdd m) = (Return, mkMutex (state m - 3) (sema m + 1)).
Proof.
  intros Hl Hw Hn Hr Hs Hlen.
  destruct answers as [| b1 [| b2 [| b3 [| b4 rest]]]]; simpl in Hlen; try lia.
  cbn [call_alone]. rewrite unlock_add. cbv zeta. rewrite Hl.
  cbn [step]. rewrite unlock_check_needs.
  assert (Hneed : needs_wake (Int32.sub (state m) mutexLocked) = true).
  { unfold needs_wake. apply Word.locked_odd in Hl.
    apply WordMore.woken_clear in Hw.
    rewrite !andb_true_iff, !negb_true_iff. repeat split.
    - apply Word.locked_even. arith_lia.
    - apply WordMore.woken_clear. arith_lia.
    - apply Z.eqb_neq. arith_lia. }
  rewrite Hneed. simpl negb. cbv iota.
  cbn [step]. unfold CompareAndSwapInt32, set_state. cbn [state sema].
  rewrite Z.eqb_refl. cbn [step]. unfold runtime_Semrelease, Uint32.wrap.
  cbn [state sema fst]. f_equal. f_equal.
  - apply Word.locked_odd in Hl. apply WordMore.woken_clear in Hw. arith_lia.
  - change (2 ^ 32) with 4294967296. apply Z.mod_small. lia.
Qed.

Lemma woken_waiter_acquires (s se : Z) (answers : list bool) :
  locked s = false -> woken s = true -> 0 < se -> (4 <= length answers)%nat ->
  fst (call_alone answers LSema (mkMutex s se))
  = (Return, mkMutex (Z.ldiff (Z.lor s mutexLocked) mutexWoken) (se - 1)).
Proof.
  intros Hl Hw Hse Hlen.
  destruct answers as [| b1 [| b2 [| b3 [| b4 rest]]]]; simpl in Hlen; try lia.
  assert (Hland : (Z.land s mutexLocked =? 0) = true).
  { unfold locked in Hl. apply negb_false_iff in Hl. exact Hl. }
  assert (Hwk : (Z.land (Z.lor s mutexLocked) mutexWoken =? 0) = false).
  { pose proof (WordMore.lor_locked_woken s) as H. rewrite Hw in H.
    unfold woken in H. apply negb_true_iff in H. exact H. }
  cbn [call_alone step]. unfold runtime_Semacquire. cbn [sema state].
  apply Z.ltb_lt in Hse. rewrite Hse. cbn [step state]. rewrite Hland.
  simpl negb. cbv iota. cbn [step]. rewrite Hwk. cbn [step].
  unfold CompareAndSwapInt32. cbn [state]. rewrite Z.eqb_refl, Hland.
  reflexivity.
Qed.

(** X15. Hand-over with nobody else running: from a state word, in the
    int32 range, with the lock bit, no woken bit and a waiter parked in the
    semaphore, Unlock followed by the retry of the woken waiter leaves the
    same word with one waiter fewer, the lock bit set for the waiter, the
    woken bit clear again and the semaphore as it was.  In between, the
    word has no lock bit, the woken bit, and the semaphore one credit. *)
Theorem unlock_hands_over (m : Mutex) (unlocker waiter : list bool) :
  locked (state m) = true -> woken (state m) = false ->
  waiters (state m) <> 0 -> 0 <= state m < 2 ^ 31 ->
  0 <= sema m < 2 ^ 32 - 1 ->
  (4 <= length unlocker)%nat -> (4 <= length waiter)%nat ->
  fst (call_alone unlocker UAdd m) = (Return, mkMutex (state m - 3) (sema m + 1)) /\
  fst (call_alone waiter LSema (snd (fst (call_alone unlocker UAdd m))))
  = (Return, mkMutex (state m - 4) (sema m)) /\
  locked (state m - 4) = true /\ woken (state m - 4) = false /\
  waiters (state m - 4) = waiters (state m) - 1.
Proof.
  intros Hl Hw Hn Hr Hs Hlu Hlw.
  change (2 ^ 31) with 2147483648 in Hr. change (2 ^ 32 - 1) with 4294967295 in Hs.
  pose proof (unlock_alone_wakes m unlocker Hl Hw Hn Hr Hs Hlu) as Hu.
  split; [exact Hu |]. rewrite Hu. cbn [fst snd].
  pose proof Hl as Hodd. apply Word.locked_odd in Hodd.
  pose proof Hw as Hlow. apply WordMore.woken_clear in Hlow.
  assert (Hl1 : locked (state m - 3) = false)
    by (apply Word.locked_even; Z.div_mod_to_equations; lia).
  assert (Hw1 : woken (state m - 3) = true)
    by (apply Word.woken_mod; Z.div_mod_to_equations; lia).
  rewrite (woken_waiter_acquires (state m - 3) (sema m + 1) waiter Hl1 Hw1
             ltac:(lia) Hlw).
  split; [| split; [| split]].
  - f_equal. f_equal; [| lia].
    apply Word.locked_even in Hl1. apply Word.woken_mod in Hw1. arith_lia.
  - apply Word.locked_odd. Z.div_mod_to_equations; lia.
  - apply WordMore.woken_clear. Z.div_mod_to_equations; lia.
  - arith_lia.
Qed.

(** ** These theorems at concrete inputs *)

Lemma one_wakeup_in_flight_witness :
  fatal (fst (exec wake_schedule two_units)) = None /\
  wakeups (fst (exec wake_schedule two_units)) = 1 /\
  woken (state (mu (fst (exec wake_schedule two_units)))) = true.
Proof.
  split; [reflexivity |]. split; [| reflexivity]. unfold two_units.
  rewrite (proj1 (one_wakeup_in_flight [[Lock; Unlock]; [Lock]] wake_schedule eq_refl)).
  reflexivity.
Defined.

Lemma parked_callers_accounted_witness :
  Z.of_nat (length [[Lock; Unlock]; [Lock]]) < 2 ^ 29 /\
  fatal (fst (exec hold_schedule two_units)) = None /\
  waiters (state (mu (fst (exec hold_schedule two_units)))) = 1 /\
  tally (standing at_lsema) (gs (fst (exec hold_schedule two_units))) = 1.
Proof.
  split; [reflexivity |]. split; [reflexivity |]. split; [reflexivity |].
  unfold two_units.
  rewrite <- (proj2 (proj2 (parked_callers_accounted [[Lock; Unlock]; [Lock]]
                              hold_schedule eq_refl eq_refl))).
  reflexivity.
Defined.

Lemma needed_wake_has_waker_witness :
  fatal (fst (exec before_wake two_units)) = None /\
  state (mu (fst (exec before_wake two_units))) = 4 /\
  exists i g,
    gs (fst (exec before_wake two_units)) !! i = Some g /\
    (pc g = Some (UCheck (state (mu (fst (exec before_wake two_units)))))
     \/ exists new,
          pc g = Some (UCAS (state (mu (fst (exec before_wake two_units)))) new)).
Proof.
  split; [reflexivity |]. split; [reflexivity |].
  apply (needed_wake_has_waker [[Lock; Unlock]; [Lock]] before_wake);
    [reflexivity | reflexivity | reflexivity | discriminate].
Defined.

Lemma paired_callers_never_panic_witness :
  forallb paired [[Lock; Unlock]; [Lock; Unlock]] = true /\
  fatal (fst (exec wake_schedule (boot [[Lock; Unlock]; [Lock; Unlock]]))) = None.
Proof.
  split; [reflexivity |].
  exact (paired_callers_never_panic [[Lock; Unlock]; [Lock; Unlock]] wake_schedule
           eq_refl).
Defined.

Lemma paired_callers_progress_witness :
  forallb paired [[Lock; Unlock]; [Lock; Unlock]] = true /\
  Z.of_nat (length [[Lock; Unlock]; [Lock; Unlock]]) < 2 ^ 29 /\
  ((forall i g,
      gs (fst (exec hold_schedule (boot [[Lock; Unlock]; [Lock; Unlock]]))) !! i
      = Some g -> finished g = true) \/
   (exists i g,
      gs (fst (exec hold_schedule (boot [[Lock; Unlock]; [Lock; Unlock]]))) !! i
      = Some g /\
      runnable (mu (fst (exec hold_schedule (boot [[Lock; Unlock]; [Lock; Unlock]])))) g
      = true /\
      forall b,
        fst (sys_step i b (fst (exec hold_schedule (boot [[Lock; Unlock]; [Lock; Unlock]]))))
        <> fst (exec hold_schedule (boot [[Lock; Unlock]; [Lock; Unlock]])))).
Proof.
  split; [reflexivity |]. split; [reflexivity |].
  exact (paired_callers_progress [[Lock; Unlock]; [Lock; Unlock]] hold_schedule
           eq_refl eq_refl).
Defined.

Lemma lock_without_unlock_witness :
  forallb only_lock [[Lock; Lock]] = true /\
  (count is_acquired (snd (exec (alone (repeat false 12)) (boot [[Lock; Lock]]))) <= 1)%nat /\
  (locks_left (gs (boot [[Lock; Lock]]))
   <= locks_left (gs (fst (exec (alone (repeat false 12)) (boot [[Lock; Lock]])))) + 1)%nat.
Proof.
  split; [reflexivity |].
  destruct (lock_without_unlock [[Lock; Lock]] (alone (repeat false 12)) eq_refl)
    as (H1 & _ & H3).
  split; [exact H1 | exact H3].
Defined.

Lemma unlock_alone_witness :
  (4 <= length (repeat true 4))%nat /\
  fst (call_alone (repeat true 4) UAdd (mkMutex 5 0)) = (Return, mkMutex 2 1) /\
  fst (call_alone (repeat true 4) UAdd (mkMutex 1 0)) = (Return, mkMutex 0 0) /\
  fst (call_alone (repeat true 4) UAdd (mkMutex 4 0)) = (Panic unlocked_msg, mkMutex 3 0).
Proof.
  split; [simpl; lia |].
  split; [exact (proj1 (unlock_alone (mkMutex 5 0) (repeat true 4) ltac:(simpl; lia))) |].
  split; [exact (proj1 (unlock_alone (mkMutex 1 0) (repeat true 4) ltac:(simpl; lia))) |].
  exact (proj1 (unlock_alone (mkMutex 4 0) (repeat true 4) ltac:(simpl; lia))).
Defined.

Lemma lock_alone_free_witness :
  locked (state (mkMutex 6 0)) = false /\ (4 <= length (repeat true 4))%nat /\
  fst (call_alone (repeat true 4) LFast (mkMutex 6 0)) = (Return, mkMutex 7 0).
Proof.
  split; [reflexivity |]. split; [simpl; lia |].
  exact (proj1 (lock_alone_free (mkMutex 6 0) (repeat true 4) eq_refl
                  ltac:(simpl; lia))).
Defined.

Lemma lock_alone_on_locked_witness :
  locked (state (mkMutex 5 0)) = true /\ sema (mkMutex 5 0) = 0 /\
  locked (state (snd (fst (call_alone (repeat true 20) LFast (mkMutex 5 0))))) = true /\
  count is_acquired (snd (call_alone (repeat true 20) LFast (mkMutex 5 0))) = 0%nat.
Proof.
  split; [reflexivity |]. split; [reflexivity |].
  destruct (lock_alone_on_locked (mkMutex 5 0) (repeat true 20) eq_refl eq_refl)
    as (_ & H2 & H3).
  split; [exact H2 | exact H3].
Defined.

Lemma lock_returns_by_cas_witness :
  In EvAcquired (snd (call_run [(false, mkMutex 1 0); (false, mkMutex 4 0);
                                (false, mkMutex 4 0); (false, mkMutex 4 0)] LFast)) /\
  exists pre old new,
    snd (call_run [(false, mkMutex 1 0); (false, mkMutex 4 0);
                   (false, mkMutex 4 0); (false, mkMutex 4 0)] LFast)
    = pre ++ [EvCAS old new true; EvAcquired] /\
    locked old = false /\ locked new = true /\ waiters new = waiters old /\
    count is_acquired pre = 0%nat.
Proof.
  assert (H : In EvAcquired
                (snd (call_run [(false, mkMutex 1 0); (false, mkMutex 4 0);
                                (false, mkMutex 4 0); (false, mkMutex 4 0)] LFast))).
  { simpl. right. right. right. left. reflexivity. }
  split; [exact H |]. exact (lock_returns_by_cas _ H).
Defined.

Lemma lock_alone_parks_witness :
  locked (state (mkMutex 5 0)) = true /\ sema (mkMutex 5 0) = 0 /\
  fst (fst (call_alone spin_then_park LFast (mkMutex 5 0))) = Block /\
  snd (fst (call_alone spin_then_park LFast (mkMutex 5 0))) = mkMutex 9 0.
Proof.
  split; [reflexivity |]. split; [reflexivity |]. split; [reflexivity |].
  exact (proj1 (lock_alone_parks (mkMutex 5 0) spin_then_park eq_refl eq_refl)
           eq_refl).
Defined.

Lemma unlock_release_by_cas_witness :
  In EvSemrelease (snd (call_run [(false, mkMutex 5 0); (false, mkMutex 4 0);
                                  (false, mkMutex 4 0); (false, mkMutex 2 0)] UAdd)) /\
  exists pre old new,
    snd (call_run [(false, mkMutex 5 0); (false, mkMutex 4 0);
                   (false, mkMutex 4 0); (false, mkMutex 2 0)] UAdd)
    = pre ++ [EvCAS old new true; EvSemrelease; EvUnlockReturn] /\
    locked old = false /\ woken old = false /\ waiters old <> 0.
Proof.
  assert (H : In EvSemrelease
                (snd (call_run [(false, mkMutex 5 0); (false, mkMutex 4 0);
                                (false, mkMutex 4 0); (false, mkMutex 2 0)] UAdd))).
  { simpl. right. right. right. left. reflexivity. }
  split; [exact H |].
  destruct (unlock_release_by_cas _ H)
    as (pre & old & new & H1 & _ & H3 & H4 & H5 & _).
  exists pre, old, new. repeat split; assumption.
Defined.

Lemma unlock_hands_over_witness :
  locked (state (mkMutex 5 0)) = true /\ woken (state (mkMutex 5 0)) = false /\
  waiters (state (mkMutex 5 0)) <> 0 /\
  fst (call_alone (repeat true 4) UAdd (mkMutex 5 0)) = (Return, mkMutex 2 1) /\
  fst (call_alone (repeat true 4) LSema
         (snd (fst (call_alone (repeat true 4) UAdd (mkMutex 5 0)))))
  = (Return, mkMutex 1 0).
Proof.
  split; [reflexivity |]. split; [reflexivity |]. split; [discriminate |].
  destruct (unlock_hands_over (mkMutex 5 0) (repeat true 4) (repeat true 4)
              eq_refl eq_refl ltac:(discriminate) ltac:(simpl; lia)
              ltac:(simpl; lia) ltac:(simpl; lia) ltac:(simpl; lia))
    as (H1 & H2 & _).
  split; [exact H1 | exact H2].
Defined.

(** ** When every caller is done *)

Lemma finished_idle (g : goroutine) :
  finished g = true ->
  holding g = false /\ forall p, standing p g = false.
Proof.
  unfold finished, holding, standing.
  destruct (pc g); [discriminate |]. destruct (pending g); [| discriminate].
  intros _. split; reflexivity.
Qed.

(** X16. Once callers that pair every Lock with an Unlock, fewer than 2^29
    of them, have all made all their calls, the mutex is back to its zero
    value, whatever the schedule was: no lock bit, no woken bit, no waiter
    counted and no credit left in the semaphore. *)
Theorem paired_callers_restore_zero (progs : list (list call))
    (sched : list (nat * bool)) :
  forallb paired progs = true ->
  Z.of_nat (length progs) < 2 ^ 29 ->
  (forall i g, gs (fst (exec sched (boot progs))) !! i = Some g ->
               finished g = true) ->
  mu (fst (exec sched (boot progs))) = zeroMutex.
Proof.
  intros Hp Hn Hdone. change (2 ^ 29) with 536870912 in Hn.
  rewrite <- (boot_length progs) in Hn.
  destruct (reach_paired progs sched Hp) as (Hf & [_ Hhold] & (_ & _ & Htok)).
  destruct (exec_waiters sched (boot progs) (boot_ok progs) Hn
              (fun _ => boot_waiters progs)) as [Hwi _].
  destruct (Hwi Hf) as (Hst & Hs & Hwait).
  set (s := fst (exec sched (boot progs))) in *.
  assert (HH : holders (gs s) = 0%nat).
  { apply holders_none. intros i g Hg.
    exact (proj1 (finished_idle g (Hdone i g Hg))). }
  assert (HT : forall p, tally (standing p) (gs s) = 0).
  { intros p. apply tally_none. intros i g Hg.
    exact (proj2 (finished_idle g (Hdone i g Hg)) p). }
  unfold wakeups in Htok. rewrite !HT in Htok, Hwait.
  assert (Hlocked : locked (state (mu s)) = false).
  { rewrite HH in Hhold. destruct (locked (state (mu s))); [discriminate | reflexivity]. }
  assert (Hw0 : 0 <= waiters (state (mu s))).
  { unfold waiters. apply Z.shiftr_nonneg. exact Hst. }
  assert (Hsema : sema (mu s) = 0) by lia.
  assert (Hwoken : woken (state (mu s)) = false).
  { rewrite Hsema in Htok. destruct (woken (state (mu s))); [simpl in Htok; lia | reflexivity]. }
  assert (Hwaiters : waiters (state (mu s)) = 0) by lia.
  assert (Hstate : state (mu s) = 0).
  { apply Word.locked_even in Hlocked. apply WordMore.woken_clear in Hwoken.
    clear Htok Hwait Hw0. arith_lia. }
  destruct (mu s) as [st se]. simpl in *. subst. reflexivity.
Qed.

Lemma paired_callers_restore_zero_witness :
  forallb paired [rounds 1; rounds 1] = true /\
  Z.of_nat (length [rounds 1; rounds 1]) < 2 ^ 29 /\
  mu (fst (exec handover_schedule (boot [rounds 1; rounds 1]))) = zeroMutex.
Proof.
  split; [reflexivity |]. split; [reflexivity |].
  apply (paired_callers_restore_zero [rounds 1; rounds 1]); [reflexivity | reflexivity |].
  assert (E : gs (fst (exec handover_schedule (boot [rounds 1; rounds 1])))
              = [mkG [] None; mkG [] None]) by reflexivity.
  rewrite E. intros i g Hg.
  destruct i as [| [| i]]; simpl in Hg; inversion Hg; reflexivity.
Defined.

Lemma unlock_never_waits_witness :
  In (UCheck 4) (fst (call_run [(false, mkMutex 5 0); (false, mkMutex 4 0)] UAdd)) /\
  in_unlock (UCheck 4) = true /\
  fst (fst (step false (UCheck 4) (mkMutex 4 0))) <> Block.
Proof.
  assert (H : In (UCheck 4)
                (fst (call_run [(false, mkMutex 5 0); (false, mkMutex 4 0)] UAdd))).
  { simpl. right. left. reflexivity. }
  split; [exact H |].
  destruct (proj2 (unlock_never_waits [(false, mkMutex 5 0); (false, mkMutex 4 0)])
              (UCheck 4) H) as [H1 H2].
  split; [exact H1 | exact (H2 false (mkMutex 4 0))].
Defined.
